(** * Config: the key/value configuration loader of src/common/Config/Config.cpp

    A shallow embedding of the parser ([ParseFile]), the loader ([LoadFile],
    [LoadInitial], [LoadAdditionalFile], [LoadAppConfigs]), the table merge
    ([AddKey]) and the accessors ([GetValueDefault], [GetOption],
    [GetKeysByString]), followed by the properties proved about them.

    The option table and the file-local table are [std::unordered_map]s and
    are modelled as [gmap string string]; their iteration order is whatever
    [map_to_list] gives, and no statement below depends on it.  The two
    [uint32] counters are [Z] with the wrap-around written out.  Logging,
    opening files and exceptions are effects of a small state-and-exception
    monad over the [World].  The mutex [_configLock] is not modelled: the
    operations are taken one at a time. *)

From Stdlib Require Import ZArith Lia Ascii.
From Stdlib Require String.
From stdpp Require Import gmap strings list fin_maps.

Local Open Scope Z_scope.

(* ===================================================================== *)
(** ** std::string operations used by the source *)
(* ===================================================================== *)

Module Str.

(** [s.length()] *)
Definition length (s : string) : nat := String.length s.

(** [s.find(c)] and [s.find_first_of(c)] for a single character [c]:
    the position of its first occurrence, [None] for [std::string::npos]. *)
Fixpoint find (c : ascii) (s : string) : option nat :=
  match s with
  | EmptyString => None
  | String a s' => if Ascii.eqb a c then Some 0%nat else S <$> find c s'
  end.

(** the characters of [s] from position [pos] on *)
Fixpoint skip (pos : nat) (s : string) : string :=
  match pos, s with
  | O, _ => s
  | S _, EmptyString => EmptyString
  | S p, String _ s' => skip p s'
  end.

(** the first [n] characters of [s] (all of [s] when it is shorter) *)
Fixpoint first_n (n : nat) (s : string) : string :=
  match n, s with
  | O, _ => EmptyString
  | S _, EmptyString => EmptyString
  | S m, String a s' => String a (first_n m s')
  end.

(** [s.substr(pos, count)], [count = None] for [npos].  The source calls
    it with [pos <= s.length()] only (see [find_lt_length]), where it does
    not throw. *)
Definition substr (s : string) (pos : nat) (count : option nat) : string :=
  match count with
  | None => skip pos s
  | Some n => first_n n (skip pos s)
  end.

(** [s.compare(pos, len, t)]: three-way comparison of [s.substr(pos, len)]
    with [t]. *)
Definition compare (s : string) (pos len : nat) (t : string) : comparison :=
  String.compare (substr s pos (Some len)) t.

(** [s.erase(std::remove(s.begin(), s.end(), c), s.end())] *)
Fixpoint erase_remove (c : ascii) (s : string) : string :=
  match s with
  | EmptyString => EmptyString
  | String a s' =>
      if Ascii.eqb a c then erase_remove c s' else String a (erase_remove c s')
  end.

(** [s.empty()] *)
Definition empty (s : string) : bool :=
  match s with EmptyString => true | _ => false end.

(** [c] occurs in [s] *)
Fixpoint occurs (c : ascii) (s : string) : Prop :=
  match s with
  | EmptyString => False
  | String a s' => a = c \/ occurs c s'
  end.

(** [std::isspace(c, loc)] for the classic locale: space, \t, \n, \v, \f, \r *)
Definition isspace (c : ascii) : bool := Ascii.is_space c.

(** Modelled from the spec: [Warhead::String::Trim] (Util.h, not part of
    the sources at hand), "trim leading/trailing whitespace".  [ltrim]
    drops the leading white space, [rtrim] the trailing one. *)
Fixpoint ltrim (s : string) : string :=
  match s with
  | EmptyString => EmptyString
  | String a s' => if isspace a then ltrim s' else s
  end.

Fixpoint rtrim (s : string) : string :=
  match s with
  | EmptyString => EmptyString
  | String a s' =>
      match rtrim s' with
      | EmptyString => if isspace a then EmptyString else String a EmptyString
      | r => String a r
      end
  end.

Definition Trim (s : string) : string := rtrim (ltrim s).

End Str.

(* ===================================================================== *)
(** ** The world the loader runs in *)
(* ===================================================================== *)

(** An opened [std::ifstream], seen through what successive calls of
    [std::getline(in, line)] do to it:
    - [got_line l rest]: [l] and its delimiter are extracted, the stream
      stays [good()];
    - [hit_eof l]: the end of the file is reached after extracting [l]
      ([eofbit], and [failbit] when nothing was extracted);
    - [hit_error]: the read fails with the stream neither [good()] nor
      [eof()]. *)
Inductive ifstream : Type :=
  | got_line (line : string) (rest : ifstream)
  | hit_eof (line : string)
  | hit_error.

(** [ConfigException], told apart by the message it is built with. *)
Inductive ConfigException : Type :=
  | FailedOpenFile (file : string)
      (* "Config::LoadFile: Failed open file '%s'" *)
  | FailureReadLine (lineNumber : Z) (file : string)
      (* "> Config::LoadFile: Failure to read line number %u in file '%s'" *)
  | EmptyFile (file : string).
      (* "Config::LoadFile: Empty file '%s'" *)

(** The diagnostics, before formatting. *)
Inductive Message : Type :=
  | SkipLine (lineNumber : Z) (file : string)
      (* "... Failure to read line number %u in file '%s'. Skip this line" *)
  | DublicateKey (confOption file : string)
      (* "... Dublicate key name '%s' in config file '%s'" *)
  | What (e : ConfigException)
      (* "> %s", e.what() *)
  | OptionIsExist (optionName existing : string)
      (* "> Config: Option '%s' is exist! Option key - '%s'" *)
  | MissingName (name def : string)
      (* "> Config: Missing name %s in config, add ..." *)
  | BadValue (name def : string).
      (* "> Config: Bad value defined for name '%s', going to use '%s' instead" *)

(** What the outside sees: files being opened and calls of [LOG_ERROR]
    (with its first argument). *)
Inductive Event : Type :=
  | Open (file : string)
  | LogError (filter : string) (m : Message).

Record World : Type := mkWorld {
  disk : string -> option ifstream;          (* what opening a path gives *)
  _filename : string;
  _configOptions : gmap string string;
  output : list Event
}.

Definition set_filename (f : string) (w : World) : World :=
  mkWorld (disk w) f (_configOptions w) (output w).
Definition set_configOptions (m : gmap string string) (w : World) : World :=
  mkWorld (disk w) (_filename w) m (output w).
Definition emit (e : Event) (w : World) : World :=
  mkWorld (disk w) (_filename w) (_configOptions w) (output w ++ [e]).

(** *** State and exception monad *)

Inductive Outcome (A : Type) : Type :=
  | Returns (a : A)
  | Throws (e : ConfigException).
Arguments Returns {A} a.
Arguments Throws {A} e.

Definition M (A : Type) : Type := World -> Outcome A * World.

Definition ret {A} (a : A) : M A := fun w => (Returns a, w).
Definition throw {A} (e : ConfigException) : M A := fun w => (Throws e, w).
Definition bind {A B} (m : M A) (k : A -> M B) : M B :=
  fun w => match m w with
           | (Returns a, w') => k a w'
           | (Throws e, w') => (Throws e, w')
           end.
Definition try_catch {A} (body : M A) (handler : ConfigException -> M A) : M A :=
  fun w => match body w with
           | (Returns a, w') => (Returns a, w')
           | (Throws e, w') => handler e w'
           end.
Definition gets {A} (f : World -> A) : M A := fun w => (Returns (f w), w).
Definition modify (f : World -> World) : M unit := fun w => (Returns tt, f w).

Notation "x <- m ;; k" := (bind m (fun x => k))
  (at level 100, m at next level, right associativity).
Notation "m ;;; k" := (bind m (fun _ => k))
  (at level 100, right associativity).

(** a range-based [for] over a container *)
Fixpoint for_each {A} (l : list A) (body : A -> M unit) : M unit :=
  match l with
  | [] => ret tt
  | x :: l' => body x ;;; for_each l' body
  end.

Definition LOG_ERROR (filter : string) (m : Message) : M unit :=
  modify (emit (LogError filter m)).

(** [std::ifstream in(file)] followed by [in.fail()] *)
Definition open_ifstream (file : string) : M (option ifstream) :=
  modify (emit (Open file)) ;;; gets (fun w => disk w file).

(** [uint32] increment *)
Definition uint32_incr (n : Z) : Z := (n + 1) mod 2 ^ 32.

(* ===================================================================== *)
(** ** The anonymous namespace of Config.cpp *)
(* ===================================================================== *)

(** [PrintError]: formats the message and hands it to [LOG_ERROR] with "%s"
    in first position; the [filename] argument is not used. *)
Definition PrintError (filename : string) (m : Message) : M unit :=
  LOG_ERROR "%s" m.

(** [unordered_map::emplace]: no effect when the key is present *)
Definition emplace (k v : string) (m : gmap string string) : gmap string string :=
  match m !! k with
  | Some _ => m
  | None => <[k := v]> m
  end.

(** [AddKey] (lines 57-72) *)
Definition AddKey (optionName optionKey : string) (replace : bool) : M unit :=
  itr <- gets (fun w => _configOptions w !! optionName) ;;
  match itr with
  | Some second =>
      if negb replace then
        LOG_ERROR "server" (OptionIsExist optionName second)
      else
        modify (fun w => set_configOptions (delete optionName (_configOptions w)) w) ;;;
        modify (fun w => set_configOptions (emplace optionName optionKey (_configOptions w)) w)
  | None =>
      modify (fun w => set_configOptions (emplace optionName optionKey (_configOptions w)) w)
  end.

(** the double-quote character *)
Definition dquote : ascii := "034"%char.

(** The locals of [ParseFile]. *)
Record Locals : Type := mkLocals {
  count : Z;
  lineNumber : Z;
  fileConfigs : gmap string string
}.

(** What lines 107-138 make of one line, before the file-local table is
    consulted. *)
Inductive Parsed : Type :=
  | Ignored                         (* empty, comment or section line *)
  | Malformed                       (* the test of line 129 holds *)
  | KeyValue (entry value : string).

Definition ParseLine (line : string) : Parsed :=
  let line := Str.Trim line in
  if Str.empty line then Ignored
  else
    match line with
    | String c _ =>
        if Ascii.eqb c "#" || Ascii.eqb c "[" then Ignored
        else
          let line :=
            match Str.find "#" line with
            | Some found => Str.substr line 0 (Some found)
            | None => line
            end in
          match Str.find "=" line with
          | None => Malformed
          | Some equal_pos =>
              if Nat.eqb equal_pos (Str.length line) then Malformed
              else
                let entry := Str.Trim (Str.substr line 0 (Some equal_pos)) in
                let value := Str.Trim (Str.substr line (equal_pos + 1) None) in
                let value := Str.erase_remove dquote value in
                KeyValue entry value
          end
    | EmptyString => Ignored
    end.

(** The lambda [IsDuplicateOption] (lines 85-95) *)
Definition IsDuplicateOption (file : string) (ls : Locals) (confOption : string) : M bool :=
  match fileConfigs ls !! confOption with
  | Some _ => PrintError file (DublicateKey confOption file) ;;; ret true
  | None => ret false
  end.

(** The body of the [while] loop from line 107 on, for the line just read. *)
Definition ParseBody (file : string) (line : string) (ls : Locals) : M Locals :=
  match ParseLine line with
  | Ignored => ret ls
  | Malformed => PrintError file (SkipLine (lineNumber ls) file) ;;; ret ls
  | KeyValue entry value =>
      dup <- IsDuplicateOption file ls entry ;;
      if dup : bool then ret ls
      else ret (mkLocals (uint32_incr (count ls)) (lineNumber ls)
                         (emplace entry value (fileConfigs ls)))
  end.

(** The loop [while (in.good())] (lines 97-147). *)
Fixpoint ParseLoop (file : string) (in_ : ifstream) (ls : Locals) : M Locals :=
  let ls := mkLocals (count ls) (uint32_incr (lineNumber ls)) (fileConfigs ls) in
  match in_ with
  | hit_error => throw (FailureReadLine (lineNumber ls) file)
  | hit_eof line => ParseBody file line ls
  | got_line line rest => ls' <- ParseBody file line ls ;; ParseLoop file rest ls'
  end.

(** [ParseFile] (lines 74-156) *)
Definition ParseFile (file : string) : M unit :=
  in_ <- open_ifstream file ;;
  match in_ with
  | None => throw (FailedOpenFile file)
  | Some in_ =>
      ls <- ParseLoop file in_ (mkLocals 0 0 ∅) ;;
      if Z.eqb (count ls) 0 then throw (EmptyFile file)
      else for_each (map_to_list (fileConfigs ls))
                    (fun '(entry, key) => AddKey entry key true)
  end.

(** [LoadFile] (lines 158-171) *)
Definition LoadFile (file : string) : M bool :=
  try_catch (ParseFile file ;;; ret true)
            (fun e => PrintError file (What e) ;;; ret false).

(* ===================================================================== *)
(** ** ConfigMgr *)
(* ===================================================================== *)

Definition LoadInitial (file : string) : M bool :=
  modify (set_configOptions ∅) ;;;
  LoadFile file.

Definition LoadAdditionalFile (file : string) : M bool :=
  LoadFile file.

Definition Configure (initFileName : string) : M unit :=
  modify (set_filename initFileName).

Definition LoadAppConfigs : M bool :=
  filename <- gets _filename ;;
  ok <- LoadInitial (filename +:+ ".dist") ;;
  if negb ok then ret false
  else ret true.

(** [GetKeysByString] (lines 267-278) *)
Definition GetKeysByString (name : string) : M (list string) :=
  options <- gets (fun w => map_to_list (_configOptions w)) ;;
  ret (foldl (fun keys '(optionName, key) =>
                match Str.compare optionName 0 (Str.length name) name with
                | Eq => keys ++ [optionName]
                | _ => keys
                end) [] options).

Section Accessors.

(** [Warhead::StringTo<T>] and [Warhead::ToString] belong to the
    conversion utility, which the loader only calls. *)
Context {T : Type}.
Variable StringTo : string -> option T.
Variable ToString : T -> string.

(** the primary template of [GetValueDefault] (lines 193-221) *)
Definition GetValueDefault (name : string) (def : T) (showLogs : bool) : M T :=
  itr <- gets (fun w => _configOptions w !! name) ;;
  match itr with
  | None =>
      (if showLogs then LOG_ERROR "server" (MissingName name (ToString def))
       else ret tt) ;;;
      ret def
  | Some second =>
      match StringTo second with
      | None =>
          (if showLogs then LOG_ERROR "server" (BadValue name (ToString def))
           else ret tt) ;;;
          ret def
      | Some value => ret value
      end
  end.

(** the primary template of [GetOption] (lines 241-245) *)
Definition GetOption (name : string) (def : T) (showLogs : bool) : M T :=
  GetValueDefault name def showLogs.

End Accessors.

(** [GetValueDefault<std::string>] (lines 223-239) *)
Definition GetValueDefault_string (name def : string) (showLogs : bool) : M string :=
  itr <- gets (fun w => _configOptions w !! name) ;;
  match itr with
  | None =>
      (if showLogs then LOG_ERROR "server" (MissingName name def) else ret tt) ;;;
      ret def
  | Some second => ret second
  end.

(** [GetOption<std::string>], instantiated from the primary template
    (line 318) *)
Definition GetOption_string (name def : string) (showLogs : bool) : M string :=
  GetValueDefault_string name def showLogs.

(** [GetOption<bool>] (lines 247-265); [StringTo_bool] is
    [Warhead::StringTo<bool>]. *)
Definition GetOption_bool (StringTo_bool : string -> option bool)
    (name : string) (def : bool) (showLogs : bool) : M bool :=
  val <- GetValueDefault_string name (if def then "1" else "0") showLogs ;;
  match StringTo_bool val with
  | None =>
      (if showLogs
       then LOG_ERROR "server" (BadValue name (if def then "true" else "false"))
       else ret tt) ;;;
      ret def
  | Some boolVal => ret boolVal
  end.

(** *** The functions of Config.cpp not met so far *)

(** [s.find_first_of(set)], [set] a C string: the position of the first
    character of [s] that is one of the characters of [set], [None] for
    [npos]. *)
Fixpoint find_first_of (set s : string) : option nat :=
  match s with
  | EmptyString => None
  | String a s' =>
      match Str.find a set with
      | Some _ => Some 0%nat
      | None => S <$> find_first_of set s'
      end
  end.

(** [IsAppConfig] (lines 36-47) *)
Definition IsAppConfig (fileName : string) : bool :=
  match find_first_of "authserver.conf" fileName with
  | Some _ => true
  | None =>
      match find_first_of "worldserver.conf" fileName with
      | Some _ => true
      | None => false
      end
  end.

(** [ConfigMgr::GetFilename] (lines 280-284) *)
Definition GetFilename : M string := gets _filename.

(** [ConfigMgr::GetConfigPath] (lines 286-291) *)
Definition GetConfigPath : M string := ret "configs/".

(* ===================================================================== *)
(** ** Vocabulary of the statements *)
(* ===================================================================== *)

(** *** Events *)

(** [emits evs w]: [w] after the events [evs] have been output *)
Definition emits (evs : list Event) (w : World) : World :=
  mkWorld (disk w) (_filename w) (_configOptions w) (output w ++ evs).

(** the files opened by a sequence of events *)
Fixpoint opens (evs : list Event) : list string :=
  match evs with
  | [] => []
  | Open f :: evs' => f :: opens evs'
  | LogError _ _ :: evs' => opens evs'
  end.

(** *** The parsing loop as functions *)

(** The lines [std::getline] delivers, and whether the end of the file is
    reached without a read error. *)
Fixpoint lines (in_ : ifstream) : list string :=
  match in_ with
  | got_line line rest => line :: lines rest
  | hit_eof line => [line]
  | hit_error => []
  end.

Fixpoint readable (in_ : ifstream) : bool :=
  match in_ with
  | got_line _ rest => readable rest
  | hit_eof _ => true
  | hit_error => false
  end.

(** lines 121-125 and lines 127-138 on their own *)
Definition cut_comment (line : string) : string :=
  match Str.find "#" line with
  | Some found => Str.substr line 0 (Some found)
  | None => line
  end.

Definition split_at_equals (line : string) : Parsed :=
  match Str.find "=" line with
  | None => Malformed
  | Some equal_pos =>
      if Nat.eqb equal_pos (Str.length line) then Malformed
      else KeyValue (Str.Trim (Str.substr line 0 (Some equal_pos)))
             (Str.erase_remove dquote
                (Str.Trim (Str.substr line (equal_pos + 1) None)))
  end.

(** The key/value pair a line holds, if it holds one. *)
Definition entry_of (line : string) : list (string * string) :=
  match ParseLine line with
  | KeyValue entry value => [(entry, value)]
  | _ => []
  end.

(** The key/value pairs of a file, in the order of its lines. *)
Definition entries (in_ : ifstream) : list (string * string) :=
  lines in_ ≫= entry_of.

(** The keys defined by a list of lines. *)
Definition keys_of (ls : list string) : list string := (ls ≫= entry_of).*1.

(** the increment of [lineNumber] at line 99 *)
Definition next_line (ls : Locals) : Locals :=
  mkLocals (count ls) (uint32_incr (lineNumber ls)) (fileConfigs ls).

(** The locals after the loop body has run on [line], and what it logs. *)
Definition after_line (line : string) (ls : Locals) : Locals :=
  match ParseLine line with
  | KeyValue entry value =>
      match fileConfigs ls !! entry with
      | Some _ => ls
      | None => mkLocals (uint32_incr (count ls)) (lineNumber ls)
                         (<[entry := value]> (fileConfigs ls))
      end
  | _ => ls
  end.

Definition line_events (file line : string) (ls : Locals) : list Event :=
  match ParseLine line with
  | Ignored => []
  | Malformed => [LogError "%s" (SkipLine (lineNumber ls) file)]
  | KeyValue entry _ =>
      match fileConfigs ls !! entry with
      | Some _ => [LogError "%s" (DublicateKey entry file)]
      | None => []
      end
  end.

(** The outcome of the loop and the events it outputs. *)
Fixpoint loop_outcome (file : string) (in_ : ifstream) (ls : Locals) : Outcome Locals :=
  match in_ with
  | hit_error => Throws (FailureReadLine (lineNumber (next_line ls)) file)
  | hit_eof line => Returns (after_line line (next_line ls))
  | got_line line rest => loop_outcome file rest (after_line line (next_line ls))
  end.

Fixpoint loop_events (file : string) (in_ : ifstream) (ls : Locals) : list Event :=
  match in_ with
  | hit_error => []
  | hit_eof line => line_events file line (next_line ls)
  | got_line line rest =>
      line_events file line (next_line ls)
        ++ loop_events file rest (after_line line (next_line ls))
  end.

Definition locals0 : Locals := mkLocals 0 0 ∅.

(** [count] is the size of the file-local table, modulo 2^32. *)
Definition count_agrees (ls : Locals) : Prop :=
  count ls = Z.of_nat (size (fileConfigs ls)) mod 2 ^ 32.

(** *** Loads *)

(** Merging a list of entries, whatever its order. *)
Definition merge (l : list (string * string)) (m : gmap string string) :
    gmap string string :=
  foldl (fun acc '(entry, key) => <[entry := key]> acc) m l.

(** The result of a load in one statement. *)
Inductive LoadFile_cases (file : string) (w : World) : Outcome bool * World -> Prop :=
  | load_no_file :
      disk w file = None ->
      LoadFile_cases file w
        (Returns false,
         emits [Open file; LogError "%s" (What (FailedOpenFile file))] w)
  | load_throws in_ e :
      disk w file = Some in_ ->
      loop_outcome file in_ locals0 = Throws e ->
      LoadFile_cases file w
        (Returns false,
         emits (Open file :: loop_events file in_ locals0
                  ++ [LogError "%s" (What e)]) w)
  | load_empty in_ ls :
      disk w file = Some in_ ->
      loop_outcome file in_ locals0 = Returns ls ->
      count ls = 0 ->
      LoadFile_cases file w
        (Returns false,
         emits (Open file :: loop_events file in_ locals0
                  ++ [LogError "%s" (What (EmptyFile file))]) w)
  | load_merges in_ ls :
      disk w file = Some in_ ->
      loop_outcome file in_ locals0 = Returns ls ->
      count ls <> 0 ->
      LoadFile_cases file w
        (Returns true,
         set_configOptions (fileConfigs ls ∪ _configOptions w)
           (emits (Open file :: loop_events file in_ locals0) w)).

(** The ways a parse fails. *)
Inductive parse_fails (w : World) (file : string) : Prop :=
  | cannot_open :
      disk w file = None -> parse_fails w file
  | read_error in_ :
      disk w file = Some in_ -> readable in_ = false -> parse_fails w file
  | no_entries in_ :
      disk w file = Some in_ -> readable in_ = true -> entries in_ = [] ->
      parse_fails w file.

(** *** Keys, duplicates and well-formed lines *)

Definition starts_with (name : string) (option : string * string) : bool :=
  match Str.compare option.1 0 (Str.length name) name with
  | Eq => true
  | _ => false
  end.

(** How often the key [k] is defined in a list of pairs. *)
Fixpoint occurrences (k : string) (l : list (string * string)) : nat :=
  match l with
  | [] => 0
  | (entry, _) :: l' => ((if decide (entry = k) then 1 else 0) + occurrences k l')%nat
  end.

(** How many duplicate-key diagnostics for [k] in [file] are among [evs]. *)
Fixpoint duplicate_reports (k file : string) (evs : list Event) : nat :=
  match evs with
  | [] => 0
  | LogError _ (DublicateKey confOption f) :: evs' =>
      ((if decide (confOption = k /\ f = file) then 1 else 0)
       + duplicate_reports k file evs')%nat
  | _ :: evs' => duplicate_reports k file evs'
  end.

(** 1 when [k] is not yet in the file-local table *)
Definition unseen (k : string) (ls : Locals) : nat :=
  match fileConfigs ls !! k with Some _ => 0 | None => 1 end.

(** [s] begins with the character [c] *)
Definition begins_with (c : ascii) (s : string) : bool :=
  match s with
  | String a _ => Ascii.eqb a c
  | EmptyString => false
  end.

(** A line [key = value], the value possibly followed by a comment: the key
    holds no equals sign, neither key nor value holds a number sign, the key
    does not open a section, and what follows the value is nothing or
    starts with a number sign. *)
Record well_formed (key value comment : string) : Prop := {
  key_no_equals : Str.find "=" key = None;
  key_no_hash : Str.find "#" key = None;
  key_no_bracket : begins_with "[" (Str.Trim key) = false;
  value_no_hash : Str.find "#" value = None;
  comment_hash : comment = EmptyString \/ begins_with "#" comment = true
}.

(** *** The conversion to bool *)

(** Modelled from the spec: [Warhead::StringTo<bool>] (StringConvert.h, not
    part of the sources at hand), as far as the spec describes it:
    "accepting canonical true/false/1/0 forms". *)
Definition StringTo_bool_canonical (s : string) : option bool :=
  if String.eqb s "1" || String.eqb s "true" then Some true
  else if String.eqb s "0" || String.eqb s "false" then Some false
  else None.

(** *** Files and worlds for the examples *)

(** a file whose text is the given lines, each but the last one followed by
    a line break *)
Fixpoint text (lines : list string) : ifstream :=
  match lines with
  | [] => hit_eof ""
  | [l] => hit_eof l
  | l :: ls => got_line l (text ls)
  end.

(** Files for the examples. *)
Definition example_conf : ifstream :=
  text ["# comment"; "[Section]"; "Port = 8085";
        "Name = " +:+ String dquote "MyServer" +:+ String dquote "   # trailing comment";
        "Port = 9000"].

Definition override_conf : ifstream :=
  got_line "Port=7000" (got_line "  Log.Level = 3 " (hit_eof EmptyString)).

Definition example_disk (f : string) : option ifstream :=
  if String.eqb f "world.conf.dist" then Some example_conf
  else if String.eqb f "override.conf" then Some override_conf
  else if String.eqb f "comments.conf" then Some (text ["# nothing here"; "[Section]"])
  else if String.eqb f "broken.conf" then Some (got_line "Port = 1" hit_error)
  else None.

Definition example_world : World :=
  mkWorld example_disk "world.conf" {[ "Port" := "1" ]} [].

Definition flags_world (value : string) : World :=
  mkWorld example_disk "world.conf" {[ "flag" := value ]} [].

Definition trailing_equals_disk (f : string) : option ifstream :=
  if String.eqb f "a.conf" then Some (hit_eof "k=") else None.

Definition trailing_equals_world : World :=
  mkWorld trailing_equals_disk "a.conf" ∅ [].

Definition flags_world_1 : World := flags_world "1".

(** Two files with the same two lines in either order, and a file with other
    keys. *)
Definition layers_disk (f : string) : option ifstream :=
  if String.eqb f "a.conf" then Some (text ["Port = 1"; "Name = x"])
  else if String.eqb f "b.conf" then Some (text ["Name = x"; "Port = 1"])
  else if String.eqb f "c.conf" then Some (text ["Log.Level = 3"; "k # = v"])
  else if String.eqb f "torn.conf" then
    Some (got_line "Port = 1" (got_line "oops" hit_error))
  else None.

Definition layers_world : World := mkWorld layers_disk "a.conf" {[ "Old" := "0" ]} [].

(** *** A file as a table *)

(** The table a file stands for: the first value of each of its keys. *)
Definition file_table (in_ : ifstream) : gmap string string :=
  list_to_map (entries in_).

(** Whether a file is accepted: it is read to its end and the 32-bit count
    of its keys is not 0. *)
Definition accepted (in_ : ifstream) : bool :=
  readable in_ && negb (Z.of_nat (size (file_table in_)) mod 2 ^ 32 =? 0).

(** *** Counting diagnostics *)

Definition is_duplicate_report (e : Event) : bool :=
  match e with
  | LogError _ (DublicateKey _ _) => true
  | _ => false
  end.

Definition is_skip_report (e : Event) : bool :=
  match e with
  | LogError _ (SkipLine _ _) => true
  | _ => false
  end.

Definition is_malformed (line : string) : bool :=
  match ParseLine line with
  | Malformed => true
  | _ => false
  end.

Fixpoint how_many {A} (p : A -> bool) (l : list A) : nat :=
  match l with
  | [] => 0
  | x :: l' => ((if p x then 1 else 0) + how_many p l')%nat
  end.

(** What a load of [file] may output: the opening of [file] and what
    [PrintError] logs about [file]. *)
Definition load_event (file : string) (e : Event) : Prop :=
  match e with
  | Open f => f = file
  | LogError filter (SkipLine _ f) => filter = "%s" /\ f = file
  | LogError filter (DublicateKey _ f) => filter = "%s" /\ f = file
  | LogError filter (What _) => filter = "%s"
  | LogError _ _ => False
  end.

(* ===================================================================== *)
(** ** Running the monad *)
(* ===================================================================== *)

Ltac run :=
  cbv beta iota zeta delta
    [bind ret throw gets modify try_catch LOG_ERROR PrintError open_ifstream].

Lemma emits_nil w : emits [] w = w.
Proof. destruct w; unfold emits; simpl. by rewrite app_nil_r. Qed.

Lemma emit_emits e w : emit e w = emits [e] w.
Proof. reflexivity. Qed.

Lemma emits_emits evs1 evs2 w : emits evs2 (emits evs1 w) = emits (evs1 ++ evs2) w.
Proof. unfold emits; simpl. by rewrite app_assoc. Qed.

Lemma opens_app evs1 evs2 : opens (evs1 ++ evs2) = opens evs1 ++ opens evs2.
Proof.
  induction evs1 as [|[f|flt m] evs1 IH]; simpl; [done| |done].
  by rewrite IH.
Qed.

Lemma emplace_fresh k v (m : gmap string string) :
  m !! k = None -> emplace k v m = <[k := v]> m.
Proof. intros H. unfold emplace. by rewrite H. Qed.

Lemma emplace_present k v (m : gmap string string) :
  is_Some (m !! k) -> emplace k v m = m.
Proof. intros [x H]. unfold emplace. by rewrite H. Qed.

(** *** AddKey and the merge *)

Lemma AddKey_replace optionName optionKey w :
  AddKey optionName optionKey true w =
  (Returns tt, set_configOptions (<[optionName := optionKey]> (_configOptions w)) w).
Proof.
  unfold AddKey. run.
  destruct (_configOptions w !! optionName) as [second|] eqn:E; simpl.
  - unfold set_configOptions; simpl.
    rewrite emplace_fresh by apply lookup_delete_eq.
    by rewrite insert_delete_eq.
  - by rewrite emplace_fresh.
Qed.

Lemma AddKey_keep optionName optionKey second w :
  _configOptions w !! optionName = Some second ->
  AddKey optionName optionKey false w =
  (Returns tt, emit (LogError "server" (OptionIsExist optionName second)) w).
Proof. intros H. unfold AddKey. run. by rewrite H. Qed.

Lemma AddKey_absent optionName optionKey replace w :
  _configOptions w !! optionName = None ->
  AddKey optionName optionKey replace w =
  (Returns tt, set_configOptions (<[optionName := optionKey]> (_configOptions w)) w).
Proof. intros H. unfold AddKey. run. rewrite H. by rewrite emplace_fresh. Qed.

Lemma for_each_AddKey (l : list (string * string)) : forall w,
  for_each l (fun '(entry, key) => AddKey entry key true) w =
  (Returns tt, set_configOptions (merge l (_configOptions w)) w).
Proof.
  induction l as [|[entry key] l IH]; intros w.
  - simpl. run. by destruct w.
  - simpl. unfold bind at 1. rewrite AddKey_replace, IH. by destruct w.
Qed.

Lemma merge_lookup_notin (l : list (string * string)) : forall m k,
  k ∉ l.*1 -> merge l m !! k = m !! k.
Proof.
  induction l as [|[e v] l IH]; intros m k Hk; [done|].
  simpl in *. apply not_elem_of_cons in Hk as [Hne Hk].
  rewrite IH by done. by rewrite lookup_insert_ne.
Qed.

Lemma merge_lookup_in (l : list (string * string)) : forall m k v,
  NoDup l.*1 -> (k, v) ∈ l -> merge l m !! k = Some v.
Proof.
  induction l as [|[e x] l IH]; intros m k v Hnd Hin.
  - by apply elem_of_nil in Hin.
  - simpl in *. apply NoDup_cons in Hnd as [Hne Hnd].
    apply elem_of_cons in Hin as [Heq|Hin].
    + injection Heq as -> ->.
      rewrite merge_lookup_notin by done. apply lookup_insert_eq.
    + by apply IH.
Qed.

(** The loop of lines 154-155 computes the union that prefers the file. *)
Lemma merge_map_to_list (fc m : gmap string string) :
  merge (map_to_list fc) m = fc ∪ m.
Proof.
  apply map_eq. intros k.
  destruct (fc !! k) as [v|] eqn:E.
  - rewrite (merge_lookup_in _ _ k v).
    + symmetry. by apply lookup_union_Some_l.
    + apply NoDup_fst_map_to_list.
    + by apply elem_of_map_to_list.
  - rewrite merge_lookup_notin.
    + symmetry. by rewrite lookup_union_r.
    + intros Hin. apply list_elem_of_fmap in Hin as [[k' v'] [-> Hin]].
      apply elem_of_map_to_list in Hin. simpl in E. congruence.
Qed.

(** The same for any other iteration order of the file-local table. *)
Lemma merge_any_order (l : list (string * string)) (fc m : gmap string string) :
  l ≡ₚ map_to_list fc -> merge l m = fc ∪ m.
Proof.
  intros Hp. rewrite <- merge_map_to_list.
  apply map_eq. intros k.
  assert (Hnd : NoDup l.*1).
  { rewrite Hp. apply NoDup_fst_map_to_list. }
  destruct (fc !! k) as [v|] eqn:E.
  - rewrite (merge_lookup_in l _ k v), (merge_lookup_in (map_to_list fc) _ k v);
      [done|apply NoDup_fst_map_to_list|by apply elem_of_map_to_list|done|].
    rewrite Hp. by apply elem_of_map_to_list.
  - rewrite !merge_lookup_notin; [done| |].
    + intros Hin. apply list_elem_of_fmap in Hin as [[k' v'] [-> Hin]].
      apply elem_of_map_to_list in Hin. simpl in E. congruence.
    + rewrite Hp. intros Hin. apply list_elem_of_fmap in Hin as [[k' v'] [-> Hin]].
      apply elem_of_map_to_list in Hin. simpl in E. congruence.
Qed.

(* ===================================================================== *)
(** ** What the parsing loop computes *)
(* ===================================================================== *)

Lemma ParseBody_run file line ls w :
  ParseBody file line ls w =
  (Returns (after_line line ls), emits (line_events file line ls) w).
Proof.
  unfold ParseBody, after_line, line_events, IsDuplicateOption.
  destruct (ParseLine line) as [| |entry value]; run.
  - by rewrite emits_nil.
  - done.
  - destruct (fileConfigs ls !! entry) as [x|] eqn:E; run.
    + done.
    + rewrite emits_nil. by rewrite emplace_fresh.
Qed.

Lemma ParseLoop_run file in_ : forall ls w,
  ParseLoop file in_ ls w =
  (loop_outcome file in_ ls, emits (loop_events file in_ ls) w).
Proof.
  induction in_ as [line rest IH|line|]; intros ls w; simpl.
  - unfold bind. fold (next_line ls). rewrite ParseBody_run, IH.
    by rewrite emits_emits.
  - fold (next_line ls). apply ParseBody_run.
  - run. by rewrite emits_nil.
Qed.

(** The loop only logs. *)
Lemma line_events_opens file line ls : opens (line_events file line ls) = [].
Proof.
  unfold line_events. destruct (ParseLine line); [done..|].
  by destruct (fileConfigs ls !! entry).
Qed.

Lemma loop_events_opens file in_ : forall ls, opens (loop_events file in_ ls) = [].
Proof.
  induction in_ as [line rest IH|line|]; intros ls; simpl.
  - by rewrite opens_app, line_events_opens, IH.
  - apply line_events_opens.
  - done.
Qed.

(** A read error makes the loop throw; otherwise it returns. *)
Lemma loop_outcome_error file in_ : forall ls,
  readable in_ = false ->
  exists n, loop_outcome file in_ ls = Throws (FailureReadLine n file).
Proof.
  induction in_ as [line rest IH|line|]; intros ls Hr; simpl in *.
  - by apply IH.
  - done.
  - eauto.
Qed.

Lemma loop_outcome_readable file in_ : forall ls,
  readable in_ = true -> exists ls', loop_outcome file in_ ls = Returns ls'.
Proof.
  induction in_ as [line rest IH|line|]; intros ls Hr; simpl in *.
  - by apply IH.
  - eauto.
  - done.
Qed.

Lemma loop_outcome_returns file in_ : forall ls ls',
  loop_outcome file in_ ls = Returns ls' -> readable in_ = true.
Proof.
  induction in_ as [line rest IH|line|]; intros ls ls' H; simpl in *; eauto.
  done.
Qed.

(** The file-local table after the loop: the first pair of each key. *)
Lemma after_line_fileConfigs line ls :
  fileConfigs (after_line line (next_line ls)) =
  fileConfigs ls ∪ list_to_map (entry_of line).
Proof.
  unfold after_line, entry_of. simpl.
  destruct (ParseLine line) as [| |entry value]; simpl.
  1,2: by rewrite (right_id_L ∅ (∪)).
  rewrite insert_empty.
  destruct (fileConfigs ls !! entry) as [x|] eqn:E; simpl.
  - apply map_eq. intros k. rewrite lookup_union.
    destruct (decide (k = entry)) as [->|Hne].
    + rewrite E, lookup_singleton_eq. done.
    + rewrite lookup_singleton_ne by done. by destruct (fileConfigs ls !! k).
  - apply map_eq. intros k. rewrite lookup_union.
    destruct (decide (k = entry)) as [->|Hne].
    + rewrite E, lookup_insert_eq, lookup_singleton_eq. done.
    + rewrite lookup_insert_ne, lookup_singleton_ne by done.
      by destruct (fileConfigs ls !! k).
Qed.

Lemma list_to_map_app_first (l1 l2 : list (string * string)) :
  (list_to_map (l1 ++ l2) : gmap string string) = list_to_map l1 ∪ list_to_map l2.
Proof.
  induction l1 as [|[k v] l1 IH]; simpl.
  - by rewrite (left_id_L ∅ (∪)).
  - rewrite IH. by rewrite insert_union_l.
Qed.

Lemma loop_outcome_fileConfigs file in_ : forall ls ls',
  loop_outcome file in_ ls = Returns ls' ->
  fileConfigs ls' = fileConfigs ls ∪ list_to_map (entries in_).
Proof.
  unfold entries.
  induction in_ as [line rest IH|line|]; intros ls ls' H; simpl in *.
  - apply IH in H. rewrite H, after_line_fileConfigs.
    rewrite list_to_map_app_first. by rewrite (assoc_L (∪)).
  - injection H as <-. rewrite after_line_fileConfigs.
    by rewrite app_nil_r.
  - done.
Qed.

Lemma after_line_count line ls :
  count_agrees ls -> count_agrees (after_line line (next_line ls)).
Proof.
  unfold count_agrees, after_line. simpl.
  destruct (ParseLine line) as [| |entry value]; simpl; try done.
  destruct (fileConfigs ls !! entry) as [x|] eqn:E; simpl; [done|].
  intros ->. rewrite map_size_insert_None by done.
  unfold uint32_incr. rewrite Zplus_mod_idemp_l. f_equal. lia.
Qed.

Lemma loop_outcome_count file in_ : forall ls ls',
  count_agrees ls -> loop_outcome file in_ ls = Returns ls' -> count_agrees ls'.
Proof.
  induction in_ as [line rest IH|line|]; intros ls ls' Hc H; simpl in *.
  - eapply IH; [|done]. by apply after_line_count.
  - injection H as <-. by apply after_line_count.
  - done.
Qed.

Lemma locals0_count : count_agrees locals0.
Proof. done. Qed.

(* ===================================================================== *)
(** ** What a load does *)
(* ===================================================================== *)

(** The three ways of [LoadFile], by the state of the file. *)
Lemma LoadFile_no_file file w :
  disk w file = None ->
  LoadFile file w =
  (Returns false, emits [Open file; LogError "%s" (What (FailedOpenFile file))] w).
Proof.
  intros H. unfold LoadFile, ParseFile. run. simpl. rewrite H.
  unfold emits, emit; simpl. by rewrite <- app_assoc.
Qed.

Lemma LoadFile_throws file in_ e w :
  disk w file = Some in_ ->
  loop_outcome file in_ locals0 = Throws e ->
  LoadFile file w =
  (Returns false,
   emits (Open file :: loop_events file in_ locals0 ++ [LogError "%s" (What e)]) w).
Proof.
  intros Hd Hl. unfold LoadFile, ParseFile. run. simpl. rewrite Hd.
  fold locals0. rewrite ParseLoop_run, Hl.
  unfold emits, emit; simpl. by rewrite <- !app_assoc.
Qed.

Lemma LoadFile_empty file in_ ls w :
  disk w file = Some in_ ->
  loop_outcome file in_ locals0 = Returns ls ->
  count ls = 0 ->
  LoadFile file w =
  (Returns false,
   emits (Open file :: loop_events file in_ locals0
            ++ [LogError "%s" (What (EmptyFile file))]) w).
Proof.
  intros Hd Hl Hc. unfold LoadFile, ParseFile. run. simpl. rewrite Hd.
  fold locals0. rewrite ParseLoop_run, Hl, Hc. simpl.
  unfold emits, emit; simpl. by rewrite <- !app_assoc.
Qed.

Lemma LoadFile_merges file in_ ls w :
  disk w file = Some in_ ->
  loop_outcome file in_ locals0 = Returns ls ->
  count ls <> 0 ->
  LoadFile file w =
  (Returns true,
   set_configOptions (fileConfigs ls ∪ _configOptions w)
     (emits (Open file :: loop_events file in_ locals0) w)).
Proof.
  intros Hd Hl Hc. unfold LoadFile, ParseFile. run. simpl. rewrite Hd.
  fold locals0. rewrite ParseLoop_run, Hl.
  apply Z.eqb_neq in Hc. rewrite Hc.
  rewrite for_each_AddKey, merge_map_to_list.
  unfold set_configOptions, emits, emit; simpl. by rewrite <- !app_assoc.
Qed.

Lemma LoadFile_run file w : LoadFile_cases file w (LoadFile file w).
Proof.
  destruct (disk w file) as [in_|] eqn:Hd.
  - destruct (loop_outcome file in_ locals0) as [ls|e] eqn:Hl.
    + destruct (decide (count ls = 0)) as [Hc|Hc].
      * rewrite (LoadFile_empty file in_ ls) by done. by eapply load_empty.
      * rewrite (LoadFile_merges file in_ ls) by done. by eapply load_merges.
    + rewrite (LoadFile_throws file in_ e) by done. by eapply load_throws.
  - rewrite LoadFile_no_file by done. by apply load_no_file.
Qed.

(** No exception leaves [LoadFile]. *)
Lemma LoadFile_returns file w : exists b, (LoadFile file w).1 = Returns b.
Proof. destruct (LoadFile_run file w); simpl; eauto. Qed.

Lemma LoadInitial_unfold file w :
  LoadInitial file w = LoadFile file (set_configOptions ∅ w).
Proof. reflexivity. Qed.

Lemma LoadAdditionalFile_unfold file w :
  LoadAdditionalFile file w = LoadFile file w.
Proof. reflexivity. Qed.

Lemma entries_nil_count file in_ ls :
  loop_outcome file in_ locals0 = Returns ls -> entries in_ = [] -> count ls = 0.
Proof.
  intros Hl He.
  pose proof (loop_outcome_count _ _ _ _ locals0_count Hl) as Hc.
  pose proof (loop_outcome_fileConfigs _ _ _ _ Hl) as Hf.
  rewrite He in Hf. simpl in Hf. rewrite (left_id_L ∅ (∪)) in Hf.
  unfold count_agrees in Hc. rewrite Hc, Hf. done.
Qed.

(** What [ParseFile] throws is what [LoadFile] reports. *)
Lemma LoadFile_catches file e w w1 :
  ParseFile file w = (Throws e, w1) ->
  LoadFile file w = (Returns false, emit (LogError "%s" (What e)) w1).
Proof. intros H. unfold LoadFile. run. by rewrite H. Qed.

Lemma ParseFile_no_file file w :
  disk w file = None ->
  ParseFile file w = (Throws (FailedOpenFile file), emit (Open file) w).
Proof. intros H. unfold ParseFile. run. simpl. by rewrite H. Qed.

Lemma ParseFile_read_error file in_ w :
  disk w file = Some in_ -> readable in_ = false ->
  exists n, ParseFile file w =
    (Throws (FailureReadLine n file),
     emits (loop_events file in_ locals0) (emit (Open file) w)).
Proof.
  intros Hd Hr. destruct (loop_outcome_error file in_ locals0 Hr) as [n Hn].
  exists n. unfold ParseFile. run. simpl. rewrite Hd.
  fold locals0. by rewrite ParseLoop_run, Hn.
Qed.

Lemma ParseFile_no_entries file in_ w :
  disk w file = Some in_ -> readable in_ = true -> entries in_ = [] ->
  ParseFile file w =
    (Throws (EmptyFile file),
     emits (loop_events file in_ locals0) (emit (Open file) w)).
Proof.
  intros Hd Hr He. destruct (loop_outcome_readable file in_ locals0 Hr) as [ls Hl].
  unfold ParseFile. run. simpl. rewrite Hd.
  fold locals0. rewrite ParseLoop_run, Hl.
  by rewrite (entries_nil_count _ _ _ Hl He).
Qed.

Lemma parse_fails_throws w file :
  parse_fails w file ->
  exists e w1, ParseFile file w = (Throws e, w1)
               /\ _configOptions w1 = _configOptions w.
Proof.
  intros [Hd|in_ Hd Hr|in_ Hd Hr He].
  - rewrite ParseFile_no_file by done. eauto.
  - destruct (ParseFile_read_error file in_ w Hd Hr) as [n ->]. eauto.
  - rewrite (ParseFile_no_entries file in_) by done. eauto.
Qed.

(** Whatever makes a load return false, the table is the one before it. *)
Lemma LoadFile_false_table file w :
  (LoadFile file w).1 = Returns false ->
  _configOptions (LoadFile file w).2 = _configOptions w.
Proof. by destruct (LoadFile_run file w). Qed.

(** The table after a successful load. *)
Lemma LoadFile_true file w w' :
  LoadFile file w = (Returns true, w') ->
  exists in_ ls,
    disk w file = Some in_ /\
    loop_outcome file in_ locals0 = Returns ls /\
    count ls <> 0 /\
    w' = set_configOptions (fileConfigs ls ∪ _configOptions w)
           (emits (Open file :: loop_events file in_ locals0) w).
Proof.
  intros H. destruct (LoadFile_run file w) as [Hd|in_ e Hd Hl|in_ ls Hd Hl Hc|in_ ls Hd Hl Hc];
    try discriminate.
  injection H as <-. eauto 10.
Qed.

Lemma LoadFile_true_lookup file w w' in_ k :
  LoadFile file w = (Returns true, w') ->
  disk w file = Some in_ ->
  _configOptions w' !! k =
    (list_to_map (entries in_) : gmap string string) !! k
      ∪ _configOptions w !! k.
Proof.
  intros H Hd. apply LoadFile_true in H as (in' & ls & Hd' & Hl & Hc & ->).
  rewrite Hd in Hd'. injection Hd' as <-.
  simpl. rewrite (loop_outcome_fileConfigs _ _ _ _ Hl). simpl.
  rewrite (left_id_L ∅ (∪)). by rewrite lookup_union.
Qed.

Lemma LoadFile_disk file w : disk (LoadFile file w).2 = disk w.
Proof. by destruct (LoadFile_run file w). Qed.

(** The first pair of a key in a list of pairs is the one [list_to_map]
    keeps. *)
Lemma list_to_map_first (pre post : list (string * string)) k v :
  k ∉ pre.*1 ->
  (list_to_map (pre ++ (k, v) :: post) : gmap string string) !! k = Some v.
Proof.
  intros Hpre. rewrite list_to_map_app_first, lookup_union.
  rewrite (not_elem_of_list_to_map_1 _ _ Hpre). simpl.
  rewrite lookup_insert_eq. done.
Qed.

(** *** Strings *)

Lemma append_cons a (s t : string) : String a s +:+ t = String a (s +:+ t).
Proof. reflexivity. Qed.

Lemma append_empty_l (t : string) : EmptyString +:+ t = t.
Proof. reflexivity. Qed.

Lemma append_empty_r (s : string) : s +:+ EmptyString = s.
Proof. induction s as [|a s IH]; [done|]. by rewrite append_cons, IH. Qed.

Lemma append_assoc (s t u : string) : (s +:+ t) +:+ u = s +:+ t +:+ u.
Proof. induction s as [|a s IH]; [done|]. by rewrite !append_cons, IH. Qed.

Lemma length_append (s t : string) :
  Str.length (s +:+ t) = (Str.length s + Str.length t)%nat.
Proof.
  induction s as [|a s IH]; [done|].
  rewrite append_cons. unfold Str.length in *. simpl. by rewrite IH.
Qed.

Lemma append_suffix_ne (s t : string) : t <> EmptyString -> s <> s +:+ t.
Proof.
  intros Ht Heq. apply (f_equal Str.length) in Heq.
  rewrite length_append in Heq. destruct t; [done|].
  unfold Str.length in Heq. simpl in Heq. lia.
Qed.

(** A load opens the file it is given and no other. *)
Lemma LoadFile_opens file w :
  exists evs, output (LoadFile file w).2 = output w ++ evs /\ opens evs = [file].
Proof.
  destruct (LoadFile_run file w)
    as [Hd|in_ e Hd Hl|in_ ls Hd Hl Hc|in_ ls Hd Hl Hc]; simpl;
    eexists; (split; [reflexivity|]); simpl;
    by rewrite ?opens_app, ?loop_events_opens.
Qed.

(* ===================================================================== *)
(** ** The accessors *)
(* ===================================================================== *)

Section AccessorFacts.

Context {T : Type}.
Variable StringTo : string -> option T.
Variable ToString : T -> string.

(** What the primary template returns and what it logs. *)
Lemma GetOption_run name def showLogs w :
  GetOption StringTo ToString name def showLogs w =
  match _configOptions w !! name with
  | None =>
      (Returns def,
       if showLogs then emit (LogError "server" (MissingName name (ToString def))) w
       else w)
  | Some second =>
      match StringTo second with
      | None =>
          (Returns def,
           if showLogs then emit (LogError "server" (BadValue name (ToString def))) w
           else w)
      | Some value => (Returns value, w)
      end
  end.
Proof.
  unfold GetOption, GetValueDefault. run.
  destruct (_configOptions w !! name) as [second|]; simpl.
  - destruct (StringTo second); [done|]. by destruct showLogs.
  - by destruct showLogs.
Qed.

End AccessorFacts.

Lemma GetValueDefault_string_run name def showLogs w :
  GetValueDefault_string name def showLogs w =
  match _configOptions w !! name with
  | None =>
      (Returns def,
       if showLogs then emit (LogError "server" (MissingName name def)) w else w)
  | Some second => (Returns second, w)
  end.
Proof.
  unfold GetValueDefault_string. run.
  destruct (_configOptions w !! name) as [second|]; simpl; [done|].
  by destruct showLogs.
Qed.

(** The result of [GetOption<bool>], and the world it leaves. *)
Lemma GetOption_bool_run StringTo_bool name def showLogs w :
  exists evs,
    GetOption_bool StringTo_bool name def showLogs w =
    (Returns
       (default def
          (StringTo_bool
             (default (if def then "1" else "0") (_configOptions w !! name)))),
     emits evs w) /\
    (showLogs = false -> evs = []).
Proof.
  unfold GetOption_bool. unfold bind at 1. rewrite GetValueDefault_string_run.
  destruct (_configOptions w !! name) as [second|]; simpl.
  - destruct (StringTo_bool second) as [b|]; run; simpl.
    + exists []. by rewrite emits_nil.
    + destruct showLogs.
      * eexists [_]. by rewrite emit_emits.
      * exists []. by rewrite emits_nil.
  - destruct showLogs; simpl.
    + destruct (StringTo_bool _) as [b|]; run; simpl.
      * eexists [_]. by rewrite emit_emits.
      * eexists [_; _]. by rewrite !emit_emits, emits_emits.
    + destruct (StringTo_bool _) as [b|]; run; simpl;
        exists []; by rewrite emits_nil.
Qed.

(* ===================================================================== *)
(** ** Key enumeration *)
(* ===================================================================== *)

Lemma first_n_append (p rest : string) : Str.first_n (Str.length p) (p +:+ rest) = p.
Proof.
  induction p as [|a p IH]; [done|].
  rewrite append_cons. unfold Str.length in *. simpl. by rewrite IH.
Qed.

Lemma first_n_prefix (p : string) : forall s,
  Str.first_n (Str.length p) s = p -> exists rest, s = p +:+ rest.
Proof.
  induction p as [|a p IH]; intros s H.
  - by exists s.
  - destruct s as [|b s]; [done|].
    unfold Str.length in *. simpl in H. injection H as -> H.
    destruct (IH s H) as [rest ->]. by exists rest.
Qed.

Lemma string_compare_refl (s : string) : String.compare s s = Eq.
Proof.
  induction s as [|a s IH]; [done|]. simpl.
  unfold Ascii.compare. by rewrite N.compare_refl.
Qed.

(** The test of line 274 holds exactly for the names that start with
    [name]. *)
Lemma compare_prefix (optionName name : string) :
  Str.compare optionName 0 (Str.length name) name = Eq <->
  exists rest, optionName = name +:+ rest.
Proof.
  unfold Str.compare, Str.substr. simpl. split.
  - intros H. by apply first_n_prefix, String.compare_eq_iff.
  - intros [rest ->]. rewrite first_n_append. apply string_compare_refl.
Qed.

Lemma starts_with_true name option :
  starts_with name option = true <-> exists rest, option.1 = name +:+ rest.
Proof.
  rewrite <- compare_prefix. unfold starts_with.
  destruct (Str.compare _ _ _ _); split; congruence.
Qed.

Lemma collect_keys name (options : list (string * string)) : forall keys,
  foldl (fun keys '(optionName, key) =>
           match Str.compare optionName 0 (Str.length name) name with
           | Eq => keys ++ [optionName]
           | _ => keys
           end) keys options
  = keys ++ (filter (fun o => starts_with name o = true) options).*1.
Proof.
  induction options as [|[optionName key] options IH]; intros keys; simpl.
  - by rewrite app_nil_r.
  - rewrite IH, filter_cons.
    destruct (Str.compare optionName 0 (Str.length name) name) eqn:E.
    + rewrite decide_True by (unfold starts_with; simpl; by rewrite E).
      simpl. by rewrite <- app_assoc.
    + rewrite decide_False by (unfold starts_with; simpl; by rewrite E). done.
    + rewrite decide_False by (unfold starts_with; simpl; by rewrite E). done.
Qed.

Lemma GetKeysByString_run name w :
  GetKeysByString name w =
  (Returns (filter (fun o => starts_with name o = true)
                   (map_to_list (_configOptions w))).*1, w).
Proof. unfold GetKeysByString. run. by rewrite collect_keys. Qed.

(* ===================================================================== *)
(** ** Duplicate keys within a file *)
(* ===================================================================== *)

Lemma occurrences_app k l1 l2 :
  occurrences k (l1 ++ l2) = (occurrences k l1 + occurrences k l2)%nat.
Proof.
  induction l1 as [|[e v] l1 IH]; [done|]. simpl. rewrite IH. lia.
Qed.

Lemma occurrences_notin k l : k ∉ l.*1 -> occurrences k l = 0%nat.
Proof.
  induction l as [|[e v] l IH]; [done|]. simpl. intros Hn.
  apply not_elem_of_cons in Hn as [Hne Hn].
  rewrite decide_False by done. by rewrite IH.
Qed.

Lemma occurrences_in k l : k ∈ l.*1 -> (1 <= occurrences k l)%nat.
Proof.
  induction l as [|[e v] l IH]; simpl; intros Hin.
  - by apply elem_of_nil in Hin.
  - apply elem_of_cons in Hin as [->|Hin].
    + rewrite decide_True by done. lia.
    + apply IH in Hin. lia.
Qed.

Lemma duplicate_reports_app k file evs1 evs2 :
  duplicate_reports k file (evs1 ++ evs2)
  = (duplicate_reports k file evs1 + duplicate_reports k file evs2)%nat.
Proof.
  induction evs1 as [|[f|flt []] evs1 IH]; simpl; try done.
  rewrite IH. lia.
Qed.

(** One line: a diagnostic for [k] exactly when the line defines [k] and
    [k] is in the file-local table already. *)
Lemma line_reports k file line ls (n : nat) :
  (duplicate_reports k file (line_events file line (next_line ls))
   + (n - unseen k (after_line line (next_line ls))))%nat
  = (occurrences k (entry_of line) + n - unseen k ls)%nat.
Proof.
  unfold line_events, after_line, entry_of, unseen. simpl.
  destruct (ParseLine line) as [| |entry value]; simpl; try lia.
  destruct (decide (entry = k)) as [->|Hne].
  - destruct (fileConfigs ls !! k) as [x|] eqn:E; simpl.
    + rewrite E. rewrite decide_True by done. lia.
    + rewrite lookup_insert_eq. lia.
  - destruct (fileConfigs ls !! entry) as [x|] eqn:E; simpl.
    + rewrite decide_False by (intros [? ?]; done).
      destruct (fileConfigs ls !! k); lia.
    + rewrite lookup_insert_ne by done.
      destruct (fileConfigs ls !! k); lia.
Qed.

Lemma entries_got_line line rest :
  entries (got_line line rest) = entry_of line ++ entries rest.
Proof. reflexivity. Qed.

Lemma entries_hit_eof line : entries (hit_eof line) = entry_of line.
Proof. unfold entries. simpl. by rewrite app_nil_r. Qed.

(** The loop: one diagnostic for every definition of [k] but the first. *)
Lemma loop_reports k file in_ : forall ls,
  duplicate_reports k file (loop_events file in_ ls)
  = (occurrences k (entries in_) - unseen k ls)%nat.
Proof.
  induction in_ as [line rest IH|line|]; intros ls.
  - simpl loop_events. rewrite duplicate_reports_app, IH, entries_got_line.
    rewrite occurrences_app. apply line_reports.
  - simpl loop_events. rewrite entries_hit_eof.
    pose proof (line_reports k file line ls 0) as H. simpl in H. lia.
  - done.
Qed.

(** The table of a file has at most as many keys as the file has lines. *)
Lemma entry_of_length line : (length (entry_of line) <= 1)%nat.
Proof. unfold entry_of. destruct (ParseLine line); simpl; lia. Qed.

Lemma entries_length in_ : (length (entries in_) <= length (lines in_))%nat.
Proof.
  induction in_ as [line rest IH|line|].
  - rewrite entries_got_line, length_app. simpl.
    pose proof (entry_of_length line). lia.
  - rewrite entries_hit_eof. apply entry_of_length.
  - done.
Qed.

Lemma list_to_map_size (l : list (string * string)) :
  (size (list_to_map l : gmap string string) <= length l)%nat.
Proof.
  induction l as [|[k v] l IH].
  - simpl. by rewrite map_size_empty.
  - rewrite list_to_map_cons, map_size_insert. simpl length.
    destruct (_ !! k); unfold id; lia.
Qed.

(** A file of fewer than 2^32 lines that defines a key is not taken for an
    empty one. *)
Lemma count_nonzero file in_ ls k :
  loop_outcome file in_ locals0 = Returns ls ->
  is_Some (fileConfigs ls !! k) ->
  Z.of_nat (length (lines in_)) < 2 ^ 32 ->
  count ls <> 0.
Proof.
  intros Hl [v Hk] Hlen.
  pose proof (loop_outcome_count _ _ _ _ locals0_count Hl) as Hc.
  pose proof (loop_outcome_fileConfigs _ _ _ _ Hl) as Hf.
  simpl in Hf. rewrite (left_id_L ∅ (∪)) in Hf.
  assert (Hpos : (0 < size (fileConfigs ls))%nat).
  { destruct (decide (size (fileConfigs ls) = 0%nat)) as [Hz|Hz]; [|lia].
    apply map_size_empty_iff in Hz. rewrite Hz in Hk. done. }
  assert (Hle : (size (fileConfigs ls) <= length (lines in_))%nat).
  { rewrite Hf. etrans; [apply list_to_map_size|apply entries_length]. }
  unfold count_agrees in Hc. rewrite Hc, Z.mod_small by lia. lia.
Qed.

(*MARK_READING*)
(* ===================================================================== *)
(** ** Reading one line *)
(* ===================================================================== *)

Lemma occurs_append c (s t : string) :
  Str.occurs c (s +:+ t) <-> Str.occurs c s \/ Str.occurs c t.
Proof.
  induction s as [|a s IH]; [simpl; tauto|].
  rewrite append_cons. simpl. rewrite IH. tauto.
Qed.

Lemma occurs_ltrim c (s : string) : Str.occurs c (Str.ltrim s) -> Str.occurs c s.
Proof.
  induction s as [|a s IH]; [done|]. simpl.
  destruct (Str.isspace a); [auto|done].
Qed.

Lemma occurs_rtrim c (s : string) : Str.occurs c (Str.rtrim s) -> Str.occurs c s.
Proof.
  induction s as [|a s IH]; [done|]. simpl.
  destruct (Str.rtrim s) as [|b r].
  - destruct (Str.isspace a); simpl; tauto.
  - simpl in *. tauto.
Qed.

Lemma find_absent c (s : string) : ~ Str.occurs c s -> Str.find c s = None.
Proof.
  induction s as [|a s IH]; [done|]. simpl. intros Hn.
  destruct (Ascii.eqb_spec a c) as [->|Hne]; [tauto|].
  rewrite IH by tauto. done.
Qed.

Lemma find_None c (s : string) : Str.find c s = None -> ~ Str.occurs c s.
Proof.
  induction s as [|a s IH]; [tauto|]. simpl.
  destruct (Ascii.eqb_spec a c) as [->|Hne]; [done|].
  destruct (Str.find c s); [done|]. intros _ [H|H]; [done|]. by apply IH.
Qed.

Lemma find_first c (p rest : string) :
  ~ Str.occurs c p -> Str.find c (p +:+ String c rest) = Some (Str.length p).
Proof.
  induction p as [|a p IH]; intros Hn.
  - rewrite ?append_empty_l. simpl. by rewrite Ascii.eqb_refl.
  - rewrite ?append_cons. simpl in *.
    destruct (Ascii.eqb_spec a c) as [->|Hne]; [tauto|].
    rewrite IH by tauto. done.
Qed.

(** [find] returns a position inside the string: the second test of
    line 129 never holds. *)
Lemma find_lt_length c (s : string) pos :
  Str.find c s = Some pos -> (pos < Str.length s)%nat.
Proof.
  revert pos. induction s as [|a s IH]; intros pos; [done|].
  unfold Str.length in *. simpl.
  destruct (Ascii.eqb a c).
  - intros [= <-]. lia.
  - destruct (Str.find c s) as [q|]; [|done].
    intros [= <-]. specialize (IH q eq_refl). lia.
Qed.

Lemma skip_append (p : string) a (rest : string) :
  Str.skip (Str.length p + 1) (p +:+ String a rest) = rest.
Proof.
  induction p as [|b p IH]; [done|].
  rewrite append_cons. unfold Str.length in *. simpl. done.
Qed.

Lemma ltrim_nonspace a (s : string) :
  Str.isspace a = false -> Str.ltrim (String a s) = String a s.
Proof. intros H. simpl. by rewrite H. Qed.

Lemma rtrim_nonspace a (s : string) :
  Str.isspace a = false -> Str.rtrim (String a s) = String a (Str.rtrim s).
Proof. intros H. simpl. rewrite H. by destruct (Str.rtrim s). Qed.

Lemma ltrim_head a (s t : string) :
  Str.ltrim s = String a t -> Str.isspace a = false.
Proof.
  induction s as [|b s IH]; [done|]. simpl.
  destruct (Str.isspace b) eqn:E; [done|]. by intros [= <- _].
Qed.

Lemma ltrim_append a (s t : string) :
  Str.isspace a = false ->
  Str.ltrim (s +:+ String a t) = Str.ltrim s +:+ String a t.
Proof.
  intros Ha. induction s as [|b s IH].
  - rewrite append_empty_l. by apply ltrim_nonspace.
  - rewrite append_cons. simpl. by destruct (Str.isspace b).
Qed.

Lemma rtrim_append a (s t : string) :
  Str.isspace a = false ->
  Str.rtrim (s +:+ String a t) = s +:+ String a (Str.rtrim t).
Proof.
  intros Ha. induction s as [|b s IH].
  - rewrite !append_empty_l. by apply rtrim_nonspace.
  - rewrite !append_cons. simpl. rewrite IH.
    destruct s; by rewrite ?append_empty_l, ?append_cons.
Qed.

Lemma ltrim_ltrim (s : string) : Str.ltrim (Str.ltrim s) = Str.ltrim s.
Proof.
  induction s as [|a s IH]; [done|]. simpl.
  destruct (Str.isspace a) eqn:E; [done|]. by apply ltrim_nonspace.
Qed.

Lemma rtrim_rtrim (s : string) : Str.rtrim (Str.rtrim s) = Str.rtrim s.
Proof.
  induction s as [|a s IH]; [done|]. simpl.
  destruct (Str.rtrim s) as [|b r] eqn:E.
  - destruct (Str.isspace a) eqn:Ha; [done|]. simpl. by rewrite Ha.
  - simpl in *. by rewrite IH.
Qed.

Lemma ltrim_rtrim (s : string) : Str.ltrim (Str.rtrim s) = Str.rtrim (Str.ltrim s).
Proof.
  induction s as [|a s IH]; [done|].
  destruct (Str.isspace a) eqn:Ha.
  - simpl. rewrite Ha, <- IH.
    destruct (Str.rtrim s) as [|b r]; [done|]. simpl. by rewrite Ha.
  - rewrite ltrim_nonspace, rtrim_nonspace by done. by apply ltrim_nonspace.
Qed.

Lemma Trim_ltrim (s : string) : Str.Trim (Str.ltrim s) = Str.Trim s.
Proof. unfold Str.Trim. by rewrite ltrim_ltrim. Qed.

Lemma Trim_rtrim (s : string) : Str.Trim (Str.rtrim s) = Str.Trim s.
Proof. unfold Str.Trim. by rewrite ltrim_rtrim, rtrim_rtrim. Qed.

(** Every quote is removed and nothing else. *)
Lemma erase_remove_absent c (s : string) : ~ Str.occurs c (Str.erase_remove c s).
Proof.
  induction s as [|a s IH]; [tauto|]. simpl.
  destruct (Ascii.eqb_spec a c) as [->|Hne]; [done|]. simpl. tauto.
Qed.

Lemma erase_remove_other c d (s : string) :
  d <> c -> Str.occurs d (Str.erase_remove c s) <-> Str.occurs d s.
Proof.
  intros Hd. induction s as [|a s IH]; [done|]. simpl.
  destruct (Ascii.eqb_spec a c) as [->|Hne]; simpl; rewrite IH; [|done].
  split; [tauto|]. intros [Heq|H]; [congruence|done].
Qed.

(** The line once trimmed and cut at the comment. *)
Lemma Trim_key_value (key rest : string) :
  Str.Trim (key +:+ String "=" rest) = Str.ltrim key +:+ String "=" (Str.rtrim rest).
Proof. unfold Str.Trim. by rewrite ltrim_append, rtrim_append. Qed.

Lemma ParseLine_trimmed (l : string) (c : ascii) (l' : string) :
  Str.Trim l = String c l' ->
  Ascii.eqb c "#" || Ascii.eqb c "[" = false ->
  ParseLine l = split_at_equals (cut_comment (String c l')).
Proof.
  intros Ht Hc. unfold ParseLine. rewrite Ht. simpl Str.empty. cbv iota.
  by rewrite Hc.
Qed.

Lemma cut_comment_none (line : string) :
  ~ Str.occurs "#" line -> cut_comment line = line.
Proof. intros H. unfold cut_comment. by rewrite find_absent. Qed.

Lemma cut_comment_at (line rest : string) :
  ~ Str.occurs "#" line -> cut_comment (line +:+ String "#" rest) = line.
Proof.
  intros H. unfold cut_comment. rewrite find_first by done.
  unfold Str.substr. simpl Str.skip. apply first_n_append.
Qed.

Lemma split_at_equals_first (key value : string) :
  ~ Str.occurs "=" key ->
  split_at_equals (key +:+ String "=" value)
  = KeyValue (Str.Trim key) (Str.erase_remove dquote (Str.Trim value)).
Proof.
  intros Hk. unfold split_at_equals. rewrite find_first by done.
  rewrite length_append.
  replace (Str.length key =? Str.length key + Str.length (String "=" value))%nat
    with false
    by (symmetry; apply Nat.eqb_neq; unfold Str.length; simpl; lia).
  unfold Str.substr. simpl Str.skip at 1.
  by rewrite first_n_append, skip_append.
Qed.

Lemma ParseLine_well_formed (key value comment : string) :
  well_formed key value comment ->
  ParseLine (key +:+ "=" +:+ value +:+ comment)
  = KeyValue (Str.Trim key) (Str.erase_remove dquote (Str.Trim value)).
Proof.
  intros [Hke%find_None Hkh%find_None Hkb Hvh%find_None Hc].
  change ("=" +:+ value +:+ comment) with (String "=" (value +:+ comment)).
  (* the first character of the trimmed line *)
  assert (Hhead : exists c l',
            Str.ltrim key +:+ String "=" (Str.rtrim (value +:+ comment)) = String c l'
            /\ Ascii.eqb c "#" || Ascii.eqb c "[" = false).
  { destruct (Str.ltrim key) as [|a t] eqn:E.
    - rewrite append_empty_l. by eexists _, _.
    - rewrite append_cons. eexists _, _. split; [done|].
      pose proof (ltrim_head _ _ _ E) as Ha.
      apply orb_false_intro.
      + apply Ascii.eqb_neq. intros ->. apply Hkh, occurs_ltrim.
        rewrite E. by left.
      + unfold Str.Trim in Hkb. rewrite E, rtrim_nonspace in Hkb by done.
        exact Hkb. }
  destruct Hhead as (c & l' & Hl & Hc').
  rewrite (ParseLine_trimmed _ c l'); [|by rewrite Trim_key_value|done].
  rewrite <- Hl. clear c l' Hl Hc'.
  assert (Hlk : ~ Str.occurs "=" (Str.ltrim key)) by (by intros ?%occurs_ltrim).
  assert (Hlh : ~ Str.occurs "#" (Str.ltrim key)) by (by intros ?%occurs_ltrim).
  destruct Hc as [->|Hc].
  - (* no comment: nothing is cut *)
    rewrite append_empty_r.
    rewrite cut_comment_none.
    + rewrite split_at_equals_first by done.
      by rewrite Trim_ltrim, Trim_rtrim.
    + rewrite occurs_append. simpl.
      intros [H|[H|H]]; [done|done|]. by apply Hvh, occurs_rtrim.
  - (* a comment: the line is cut where it starts *)
    destruct comment as [|h comment]; [done|].
    simpl in Hc. apply Ascii.eqb_eq in Hc as ->.
    rewrite rtrim_append by done.
    replace (Str.ltrim key +:+ String "=" (value +:+ String "#" (Str.rtrim comment)))
      with ((Str.ltrim key +:+ String "=" value) +:+ String "#" (Str.rtrim comment))
      by (by rewrite append_assoc).
    rewrite cut_comment_at.
    + rewrite split_at_equals_first by done.
      by rewrite Trim_ltrim.
    + rewrite occurs_append. simpl. intros [H|[H|H]]; done.
Qed.

(* ===================================================================== *)
(** ** Malformed lines *)
(* ===================================================================== *)

(** A line is malformed exactly when, trimmed and cut at the comment, it
    holds no equals sign: the second test of line 129 adds nothing. *)
Lemma split_at_equals_Malformed (line : string) :
  split_at_equals line = Malformed <-> Str.find "=" line = None.
Proof.
  unfold split_at_equals.
  destruct (Str.find "=" line) as [equal_pos|] eqn:E; [|done].
  apply find_lt_length in E.
  replace (equal_pos =? Str.length line)%nat with false
    by (symmetry; apply Nat.eqb_neq; lia).
  done.
Qed.

Lemma ParseLine_no_equals (l : string) (c : ascii) (l' : string) :
  Str.Trim l = String c l' ->
  Ascii.eqb c "#" || Ascii.eqb c "[" = false ->
  Str.find "=" (cut_comment (String c l')) = None ->
  ParseLine l = Malformed.
Proof.
  intros Ht Hc Hf. rewrite (ParseLine_trimmed l c l') by done.
  by apply split_at_equals_Malformed.
Qed.

Lemma ParseLine_Malformed (l : string) :
  ParseLine l = Malformed ->
  Str.find "=" (cut_comment (Str.Trim l)) = None.
Proof.
  unfold ParseLine. destruct (Str.Trim l) as [|c l'] eqn:Ht; [done|].
  simpl Str.empty. cbv iota.
  destruct (Ascii.eqb c "#" || Ascii.eqb c "["); [done|].
  apply split_at_equals_Malformed.
Qed.

(** A malformed line is reported with its number, counted from 1 (as a
    [uint32]), and adds nothing to the file-local table. *)
Lemma malformed_line_logged file in_ : forall ls (i : nat) l,
  lines in_ !! i = Some l ->
  ParseLine l = Malformed ->
  LogError "%s" (SkipLine ((lineNumber ls + Z.of_nat i + 1) mod 2 ^ 32) file)
    ∈ loop_events file in_ ls.
Proof.
  induction in_ as [line rest IH|line|]; intros ls i l Hi Hm; simpl in Hi.
  - simpl loop_events. apply elem_of_app. destruct i as [|i].
    + left. injection Hi as ->. unfold line_events. rewrite Hm.
      apply list_elem_of_singleton. simpl. unfold uint32_incr.
      do 3 f_equal. lia.
    + right. simpl in Hi. specialize (IH (after_line line (next_line ls)) i l Hi Hm).
      replace (lineNumber (after_line line (next_line ls)))
        with (uint32_incr (lineNumber ls)) in IH.
      * unfold uint32_incr in IH.
        replace (((lineNumber ls + 1) mod 2 ^ 32 + Z.of_nat i + 1) mod 2 ^ 32)
          with ((lineNumber ls + Z.of_nat (S i) + 1) mod 2 ^ 32) in IH; [done|].
        rewrite <- !Z.add_assoc. rewrite Zplus_mod_idemp_l. f_equal. lia.
      * unfold after_line. simpl.
        destruct (ParseLine line); [done..|]. by destruct (fileConfigs ls !! entry).
  - destruct i as [|i]; [|done]. injection Hi as ->.
    simpl. unfold line_events. rewrite Hm.
    apply list_elem_of_singleton. simpl. unfold uint32_incr. do 3 f_equal. lia.
  - done.
Qed.

Lemma malformed_line_no_entry (l : string) :
  ParseLine l = Malformed -> entry_of l = [].
Proof. intros H. unfold entry_of. by rewrite H. Qed.

(** A key followed by an equals sign and nothing else is a pair with the
    empty value. *)
Lemma ParseLine_equals_at_end (key : string) :
  well_formed key EmptyString EmptyString ->
  ParseLine (key +:+ "=") = KeyValue (Str.Trim key) EmptyString.
Proof.
  intros H. apply ParseLine_well_formed in H.
  by rewrite !append_empty_r in H.
Qed.

(** The example of the specification: comment and section lines are
    ignored, the quotes and the trailing comment of [Name] are removed, the
    second [Port] is rejected with a diagnostic. *)
Example example_conf_loaded :
  LoadInitial "world.conf.dist" example_world
  = (Returns true,
     mkWorld example_disk "world.conf"
       {[ "Port" := "8085"; "Name" := "MyServer" ]}
       [Open "world.conf.dist";
        LogError "%s" (DublicateKey "Port" "world.conf.dist")]).
Proof. vm_compute. reflexivity. Qed.

(* ===================================================================== *)
(** ** The properties of the specification *)
(* ===================================================================== *)

(** C1, at the one-line file [k=], where the equals sign is the last
    character of the line: the test of line 129 compares its position, 1,
    with the length of the line, 2, so the line is not taken for malformed.
    It is read as the key [k] with the empty value, nothing is logged, and
    the load succeeds with this entry in the table. *)
Theorem C1_equals_at_end_is_stored :
  ParseLine "k=" = KeyValue "k" EmptyString /\
  Str.find "=" "k=" = Some 1%nat /\ Str.length "k=" = 2%nat /\
  LoadFile "a.conf" trailing_equals_world
  = (Returns true,
     mkWorld trailing_equals_disk "a.conf" {[ "k" := EmptyString ]} [Open "a.conf"]).
Proof. repeat split; vm_compute; reflexivity. Qed.

(** C2: when the parse of a file fails -- the file cannot be opened, a read
    fails before the end of the file, or no line of the file holds a
    key/value pair -- [ParseFile] throws, [LoadFile] catches the exception,
    logs it and returns false, and the option table is the one before the
    call. *)
Theorem C2_failed_load_leaves_table (w : World) (file : string) :
  parse_fails w file ->
  exists e w1,
    ParseFile file w = (Throws e, w1) /\
    LoadFile file w = (Returns false, emit (LogError "%s" (What e)) w1) /\
    _configOptions (LoadFile file w).2 = _configOptions w.
Proof.
  intros Hf. destruct (parse_fails_throws w file Hf) as (e & w1 & Hp & Ht).
  exists e, w1. split; [done|].
  rewrite (LoadFile_catches _ _ _ _ Hp). split; [done|]. simpl. done.
Qed.

Lemma C2_witness :
  (parse_fails example_world "missing.conf" /\
   parse_fails example_world "broken.conf" /\
   parse_fails example_world "comments.conf") /\
  exists e w1,
    ParseFile "broken.conf" example_world = (Throws e, w1) /\
    LoadFile "broken.conf" example_world
      = (Returns false, emit (LogError "%s" (What e)) w1) /\
    _configOptions (LoadFile "broken.conf" example_world).2
      = _configOptions example_world.
Proof.
  assert (H2 : parse_fails example_world "broken.conf").
  { eapply read_error; reflexivity. }
  split.
  - split; [apply cannot_open; reflexivity|].
    split; [exact H2|]. eapply no_entries; reflexivity.
  - exact (C2_failed_load_leaves_table example_world "broken.conf" H2).
Defined.

(** C3: in a file whose load succeeds, take a line [key = value], possibly
    followed by a comment, whose key no earlier line of the file defines.
    After the load the table maps the trimmed key to the trimmed value
    without its double quotes: no double quote is left in the stored value,
    and every other character of the trimmed value is kept. *)
Theorem C3_well_formed_line_is_loaded (w w' : World) (file : string)
    (in_ : ifstream) (before after : list string) (key value comment : string) :
  disk w file = Some in_ ->
  lines in_ = before ++ (key +:+ "=" +:+ value +:+ comment) :: after ->
  well_formed key value comment ->
  Str.Trim key ∉ keys_of before ->
  LoadFile file w = (Returns true, w') ->
  exists stored,
    _configOptions w' !! Str.Trim key = Some stored /\
    stored = Str.erase_remove dquote (Str.Trim value) /\
    ~ Str.occurs dquote stored /\
    (forall c, c <> dquote -> Str.occurs c stored <-> Str.occurs c (Str.Trim value)).
Proof.
  intros Hd Hlines Hwf Hfresh Hload.
  exists (Str.erase_remove dquote (Str.Trim value)).
  split; [|split; [done|split]].
  - rewrite (LoadFile_true_lookup _ _ _ in_ _ Hload Hd).
    unfold entries. rewrite Hlines, bind_app, bind_cons.
    unfold entry_of at 2. rewrite (ParseLine_well_formed _ _ _ Hwf).
    simpl app at 2.
    rewrite (list_to_map_first _ _ _ _ Hfresh). by rewrite union_Some_l.
  - apply erase_remove_absent.
  - intros c Hc. by apply erase_remove_other.
Qed.

Lemma C3_witness :
  exists stored,
    _configOptions (LoadFile "world.conf.dist" example_world).2 !! "Name"
      = Some stored /\
    stored = "MyServer" /\
    ~ Str.occurs dquote stored /\
    (forall c, c <> dquote ->
       Str.occurs c stored <->
       Str.occurs c (String dquote "MyServer" +:+ String dquote EmptyString)).
Proof.
  apply (C3_well_formed_line_is_loaded example_world
           (LoadFile "world.conf.dist" example_world).2 "world.conf.dist"
           example_conf ["# comment"; "[Section]"; "Port = 8085"] ["Port = 9000"]
           "Name " (" " +:+ String dquote "MyServer" +:+ String dquote "   ")
           "# trailing comment").
  - reflexivity.
  - reflexivity.
  - split; try reflexivity. right. reflexivity.
  - apply (bool_decide_unpack _). vm_compute. exact I.
  - reflexivity.
Defined.

(** C4: in a file that is read to its end and defines a key more than once,
    the parsing loop does not throw; the first definition is the one in the
    file-local table; every later one is dropped with one duplicate-key
    diagnostic; and the load succeeds with the first value in the table --
    the file having fewer than 2^32 lines, so that the 32-bit [count] of
    its entries has not come back to 0. *)
Theorem C4_first_occurrence_wins (w : World) (file : string) (in_ : ifstream)
    (k v : string) (pre post : list (string * string)) :
  disk w file = Some in_ ->
  readable in_ = true ->
  entries in_ = pre ++ (k, v) :: post ->
  k ∉ pre.*1 ->
  k ∈ post.*1 ->
  exists (ls : Locals) (evs : list Event),
    (forall w0, ParseLoop file in_ (mkLocals 0 0 ∅) w0 = (Returns ls, emits evs w0)) /\
    fileConfigs ls !! k = Some v /\
    duplicate_reports k file evs = occurrences k post /\
    (1 <= occurrences k post)%nat /\
    (Z.of_nat (length (lines in_)) < 2 ^ 32 ->
     exists w',
       LoadFile file w = (Returns true, w') /\
       _configOptions w' !! k = Some v /\
       output w' = output w ++ Open file :: evs).
Proof.
  intros Hd Hr He Hpre Hpost.
  destruct (loop_outcome_readable file in_ locals0 Hr) as [ls Hl].
  assert (Hk : fileConfigs ls !! k = Some v).
  { rewrite (loop_outcome_fileConfigs _ _ _ _ Hl). simpl.
    rewrite (left_id_L ∅ (∪)), He. by apply list_to_map_first. }
  exists ls, (loop_events file in_ locals0).
  split; [|split; [done|split; [|split]]].
  - intros w0. fold locals0. by rewrite ParseLoop_run, Hl.
  - rewrite loop_reports, He, occurrences_app, (occurrences_notin k pre) by done.
    simpl. rewrite decide_True by done. unfold unseen. simpl.
    rewrite lookup_empty. lia.
  - by apply occurrences_in.
  - intros Hlen.
    assert (Hc : count ls <> 0) by (eapply count_nonzero; eauto).
    eexists. split; [by apply LoadFile_merges|]. simpl.
    split; [by apply lookup_union_Some_l|done].
Qed.

Lemma C4_witness :
  (disk example_world "world.conf.dist" = Some example_conf /\
   readable example_conf = true /\
   entries example_conf
     = [] ++ ("Port", "8085") :: [("Name", "MyServer"); ("Port", "9000")] /\
   Z.of_nat (length (lines example_conf)) < 2 ^ 32) /\
  exists (ls : Locals) (evs : list Event) (w' : World),
    (forall w0, ParseLoop "world.conf.dist" example_conf (mkLocals 0 0 ∅) w0
                = (Returns ls, emits evs w0)) /\
    fileConfigs ls !! "Port" = Some "8085" /\
    duplicate_reports "Port" "world.conf.dist" evs = 1%nat /\
    LoadFile "world.conf.dist" example_world = (Returns true, w') /\
    _configOptions w' !! "Port" = Some "8085" /\
    output w' = output example_world ++ Open "world.conf.dist" :: evs.
Proof.
  assert (Hlen : Z.of_nat (length (lines example_conf)) < 2 ^ 32) by reflexivity.
  split; [repeat split; reflexivity|].
  destruct (C4_first_occurrence_wins example_world "world.conf.dist" example_conf
              "Port" "8085" [] [("Name", "MyServer"); ("Port", "9000")])
    as (ls & evs & Hloop & Hfirst & Hdup & _ & Hload).
  - reflexivity.
  - reflexivity.
  - reflexivity.
  - intros Hin. inversion Hin.
  - apply list_elem_of_In. simpl. tauto.
  - destruct (Hload Hlen) as (w' & H1 & H2 & H3).
    exists ls, evs, w'. repeat split; assumption.
Defined.

(** C5: on a key that is in the table, [AddKey] with [replace = true] makes
    the table map the key to the new value (and changes nothing else), while
    with [replace = false] it logs that the option exists, with the value in
    the table, and leaves the table as it was.  Hence after a successful
    load of a file A and then of a file B, a key that both define has the
    value B gives it. *)
Theorem C5_replace_by_default :
  (forall (w : World) (k old new : string),
     _configOptions w !! k = Some old ->
     AddKey k new true w
       = (Returns tt, set_configOptions (<[k := new]> (_configOptions w)) w) /\
     _configOptions (AddKey k new true w).2 !! k = Some new) /\
  (forall (w : World) (k old new : string),
     _configOptions w !! k = Some old ->
     AddKey k new false w
       = (Returns tt, emit (LogError "server" (OptionIsExist k old)) w) /\
     _configOptions (AddKey k new false w).2 = _configOptions w) /\
  (forall (w w1 w2 : World) (A B : string) (inA inB : ifstream)
          (k vA vB : string) (preA postA preB postB : list (string * string)),
     disk w A = Some inA -> disk w B = Some inB ->
     entries inA = preA ++ (k, vA) :: postA -> k ∉ preA.*1 ->
     entries inB = preB ++ (k, vB) :: postB -> k ∉ preB.*1 ->
     LoadInitial A w = (Returns true, w1) ->
     LoadAdditionalFile B w1 = (Returns true, w2) ->
     _configOptions w1 !! k = Some vA /\ _configOptions w2 !! k = Some vB).
Proof.
  split; [|split].
  - intros w k old new Hk. rewrite AddKey_replace. split; [done|].
    simpl. apply lookup_insert_eq.
  - intros w k old new Hk. rewrite (AddKey_keep k new old) by done. done.
  - intros w w1 w2 A B inA inB k vA vB preA postA preB postB
      HdA HdB HeA HpA HeB HpB HA HB.
    rewrite LoadInitial_unfold in HA. rewrite LoadAdditionalFile_unfold in HB.
    assert (Hd1 : disk w1 B = Some inB).
    { replace w1 with (LoadFile A (set_configOptions ∅ w)).2 by (by rewrite HA).
      by rewrite LoadFile_disk. }
    rewrite (LoadFile_true_lookup _ _ _ inA k HA) by done.
    rewrite (LoadFile_true_lookup _ _ _ inB k HB) by done.
    rewrite HeA, HeB, !list_to_map_first by done.
    by rewrite !union_Some_l.
Qed.

Lemma C5_witness :
  let w := example_world in
  let w1 := (LoadInitial "world.conf.dist" w).2 in
  let w2 := (LoadAdditionalFile "override.conf" w1).2 in
  _configOptions w !! "Port" = Some "1" /\
  _configOptions (AddKey "Port" "2" true w).2 !! "Port" = Some "2" /\
  _configOptions (AddKey "Port" "2" false w).2 = _configOptions w /\
  _configOptions w1 !! "Port" = Some "8085" /\
  _configOptions w2 !! "Port" = Some "7000".
Proof.
  assert (H : _configOptions example_world !! "Port" = Some "1") by reflexivity.
  destruct C5_replace_by_default as (H1 & H2 & H3).
  split; [exact H|].
  split; [exact (proj2 (H1 example_world "Port" "1" "2" H))|].
  split; [exact (proj2 (H2 example_world "Port" "1" "2" H))|].
  apply (H3 example_world _ _ "world.conf.dist" "override.conf"
            example_conf override_conf "Port" "8085" "7000"
            [] [("Name", "MyServer"); ("Port", "9000")] [] [("Log.Level", "3")]);
    try reflexivity.
  - intros Hin. inversion Hin.
  - intros Hin. inversion Hin.
Defined.

(** C6: [GetOption] always returns a value.  For every type served by the
    primary template, for strings and for booleans: a name that is not in
    the table gives the default; a stored string that does not convert gives
    the default; a stored string that converts gives the converted value.
    For a name that is not in the table the boolean accessor converts the
    text it made of the default, 1 or 0; it gives the default back as the
    conversion reads these two texts as true and false. *)
Theorem C6_GetOption_total {T : Type}
    (StringTo : string -> option T) (ToString : T -> string)
    (StringTo_bool : string -> option bool)
    (name : string) (showLogs : bool) (w : World) :
  (forall def : T, exists w',
     GetOption StringTo ToString name def showLogs w
       = (Returns match _configOptions w !! name with
                  | None => def
                  | Some second =>
                      match StringTo second with
                      | None => def
                      | Some value => value
                      end
                  end, w')) /\
  (forall def : string, exists w',
     GetOption_string name def showLogs w
       = (Returns match _configOptions w !! name with
                  | None => def
                  | Some second => second
                  end, w')) /\
  (forall (def : bool) (second : string),
     _configOptions w !! name = Some second ->
     exists w',
       GetOption_bool StringTo_bool name def showLogs w
         = (Returns match StringTo_bool second with
                    | None => def
                    | Some boolVal => boolVal
                    end, w')) /\
  (StringTo_bool "1" = Some true ->
   StringTo_bool "0" = Some false ->
   forall def : bool,
     _configOptions w !! name = None ->
     exists w', GetOption_bool StringTo_bool name def showLogs w = (Returns def, w')).
Proof.
  split; [|split; [|split]].
  - intros def. rewrite GetOption_run.
    destruct (_configOptions w !! name) as [second|]; [|eauto].
    destruct (StringTo second); eauto.
  - intros def. unfold GetOption_string. rewrite GetValueDefault_string_run.
    destruct (_configOptions w !! name) as [second|]; eauto.
  - intros def second Hs.
    destruct (GetOption_bool_run StringTo_bool name def showLogs w)
      as (evs & -> & _).
    rewrite Hs. simpl. destruct (StringTo_bool second); eauto.
  - intros H1 H0 def Hs.
    destruct (GetOption_bool_run StringTo_bool name def showLogs w)
      as (evs & -> & _).
    rewrite Hs. simpl. destruct def; rewrite ?H1, ?H0; simpl; eauto.
Qed.

Lemma C6_witness :
  (StringTo_bool_canonical "1" = Some true /\
   StringTo_bool_canonical "0" = Some false) /\
  (GetOption_bool StringTo_bool_canonical "flag" false true
     (flags_world "1")).1 = Returns true /\
  (GetOption_bool StringTo_bool_canonical "flag" false true
     (flags_world "notabool")).1 = Returns false /\
  (GetOption_bool StringTo_bool_canonical "missing" true true
     (flags_world "1")).1 = Returns true.
Proof.
  assert (H1 : StringTo_bool_canonical "1" = Some true) by reflexivity.
  assert (H0 : StringTo_bool_canonical "0" = Some false) by reflexivity.
  split; [done|].
  pose proof (fun n w => proj2 (proj2
    (C6_GetOption_total StringTo_bool_canonical (fun b : bool => EmptyString)
       StringTo_bool_canonical n true w))) as H.
  destruct (proj1 (H "flag" (flags_world "1")) false "1" eq_refl) as [w1 E1].
  destruct (proj1 (H "flag" (flags_world "notabool")) false "notabool" eq_refl)
    as [w2 E2].
  destruct (proj2 (H "missing" (flags_world "1")) H1 H0 true eq_refl) as [w3 E3].
  rewrite E1, E2, E3. done.
Defined.

(** C7: a file that is read to its end and holds no key/value pair makes
    [ParseFile] throw the empty-file exception, and the load returns false;
    [LoadAdditionalFile] then leaves the table as it was, [LoadInitial]
    leaves it empty. *)
Theorem C7_empty_file_fails (w : World) (file : string) (in_ : ifstream) :
  disk w file = Some in_ -> readable in_ = true -> entries in_ = [] ->
  (exists w1, ParseFile file w = (Throws (EmptyFile file), w1)) /\
  (LoadAdditionalFile file w).1 = Returns false /\
  _configOptions (LoadAdditionalFile file w).2 = _configOptions w /\
  (LoadInitial file w).1 = Returns false /\
  _configOptions (LoadInitial file w).2 = ∅.
Proof.
  intros Hd Hr He.
  split; [rewrite (ParseFile_no_entries file in_) by done; eauto|].
  rewrite LoadAdditionalFile_unfold, LoadInitial_unfold.
  rewrite (LoadFile_catches file (EmptyFile file) w _
             (ParseFile_no_entries file in_ w Hd Hr He)).
  rewrite (LoadFile_catches file (EmptyFile file) (set_configOptions ∅ w) _
             (ParseFile_no_entries file in_ (set_configOptions ∅ w) Hd Hr He)).
  done.
Qed.

Lemma C7_witness :
  (exists w1, ParseFile "comments.conf" example_world
              = (Throws (EmptyFile "comments.conf"), w1)) /\
  (LoadAdditionalFile "comments.conf" example_world).1 = Returns false /\
  _configOptions (LoadAdditionalFile "comments.conf" example_world).2
    = _configOptions example_world /\
  (LoadInitial "comments.conf" example_world).1 = Returns false /\
  _configOptions (LoadInitial "comments.conf" example_world).2 = ∅.
Proof.
  apply (C7_empty_file_fails example_world "comments.conf"
           (text ["# nothing here"; "[Section]"])); reflexivity.
Defined.

(** C8: [GetKeysByString] returns, each once, the names in the table that
    start with the given prefix and nothing else; none of them is shorter
    than the prefix, and the result is empty when no name in the table
    starts with the prefix.  The table is not changed.  Nothing is said
    about the order. *)
Theorem C8_keys_by_prefix (name : string) (w : World) :
  exists keys : list string,
    GetKeysByString name w = (Returns keys, w) /\
    NoDup keys /\
    (forall k, k ∈ keys <->
       is_Some (_configOptions w !! k) /\ exists rest, k = name +:+ rest) /\
    (forall k, k ∈ keys -> (Str.length name <= Str.length k)%nat) /\
    ((forall k rest, is_Some (_configOptions w !! k) -> k <> name +:+ rest) ->
     keys = []).
Proof.
  rewrite GetKeysByString_run. eexists. split; [reflexivity|].
  set (keys := (filter _ _).*1).
  assert (Hiff : forall k, k ∈ keys <->
            is_Some (_configOptions w !! k) /\ exists rest, k = name +:+ rest).
  { intros k. unfold keys. rewrite list_elem_of_fmap. split.
    - intros [[k' v] [-> Hin]]. apply list_elem_of_filter in Hin as [Hp Hin].
      apply elem_of_map_to_list in Hin. apply starts_with_true in Hp.
      simpl in *. split; [by exists v|done].
    - intros [[v Hv] Hp]. exists (k, v). split; [done|].
      apply list_elem_of_filter. split.
      + by apply starts_with_true.
      + by apply elem_of_map_to_list. }
  split; [|split; [exact Hiff|split]].
  - unfold keys.
    eapply sublist_NoDup; [apply (NoDup_fst_map_to_list (_configOptions w))|].
    apply fmap_sublist, sublist_filter.
  - intros k Hk. apply Hiff in Hk as [_ [rest ->]].
    rewrite length_append. lia.
  - intros Hnone. destruct keys as [|k keys'] eqn:E; [done|].
    assert (Hk : k ∈ k :: keys') by apply list_elem_of_here.
    apply Hiff in Hk as [Hs [rest ->]]. by destruct (Hnone _ rest Hs).
Qed.

Lemma C8_witness :
  (forall k rest, is_Some (_configOptions example_world !! k) -> k <> "Log." +:+ rest) /\
  GetKeysByString "Log." example_world = (Returns [], example_world) /\
  GetKeysByString "Po" example_world = (Returns ["Port"], example_world).
Proof.
  assert (Hnone : forall k rest,
            is_Some (_configOptions example_world !! k) -> k <> "Log." +:+ rest).
  { intros k rest [v Hv]. simpl in Hv.
    apply lookup_singleton_Some in Hv as [<- _].
    unfold String.append. discriminate. }
  split; [exact Hnone|].
  destruct (C8_keys_by_prefix "Log." example_world)
    as (keys & Hrun & _ & _ & _ & Hempty).
  rewrite Hrun, (Hempty Hnone). split; reflexivity.
Defined.

(** C9: [LoadAppConfigs] is the initial load of the configured filename
    followed by ".dist": it returns what that load returns, leaves the world
    that load leaves, and opens this one file only -- the filename without
    the suffix is not opened. *)
Theorem C9_app_configs_load_dist_only (w : World) :
  LoadAppConfigs w = LoadInitial (_filename w +:+ ".dist") w /\
  exists (b : bool) (w' : World) (evs : list Event),
    LoadAppConfigs w = (Returns b, w') /\
    output w' = output w ++ evs /\
    opens evs = [_filename w +:+ ".dist"] /\
    _filename w ∉ opens evs.
Proof.
  assert (Heq : LoadAppConfigs w = LoadInitial (_filename w +:+ ".dist") w).
  { unfold LoadAppConfigs. run.
    destruct (LoadFile_returns (_filename w +:+ ".dist") (set_configOptions ∅ w))
      as [b Hb].
    rewrite LoadInitial_unfold.
    destruct (LoadFile _ _) as [r w']. simpl in Hb. subst r. by destruct b. }
  split; [exact Heq|].
  rewrite Heq, LoadInitial_unfold.
  destruct (LoadFile_returns (_filename w +:+ ".dist") (set_configOptions ∅ w))
    as [b Hb].
  destruct (LoadFile_opens (_filename w +:+ ".dist") (set_configOptions ∅ w))
    as (evs & Ho & He).
  destruct (LoadFile _ _) as [r w']. simpl in *. subst r.
  exists b, w', evs. rewrite He. repeat split; [done|].
  intros Hin. apply list_elem_of_singleton in Hin.
  by apply append_suffix_ne in Hin.
Qed.

(** C10: [showLogs] does not change what [GetOption] returns, for the
    primary template, for strings and for booleans.  Whatever the flag, the
    call leaves the table alone, and with [showLogs = false] it outputs
    nothing. *)
Theorem C10_showLogs_only_logs {T : Type}
    (StringTo : string -> option T) (ToString : T -> string)
    (StringTo_bool : string -> option bool) (name : string) (w : World) :
  (forall def : T,
     (GetOption StringTo ToString name def true w).1
       = (GetOption StringTo ToString name def false w).1 /\
     (GetOption StringTo ToString name def false w).2 = w /\
     _configOptions (GetOption StringTo ToString name def true w).2
       = _configOptions w) /\
  (forall def : string,
     (GetOption_string name def true w).1 = (GetOption_string name def false w).1 /\
     (GetOption_string name def false w).2 = w /\
     _configOptions (GetOption_string name def true w).2 = _configOptions w) /\
  (forall def : bool,
     (GetOption_bool StringTo_bool name def true w).1
       = (GetOption_bool StringTo_bool name def false w).1 /\
     (GetOption_bool StringTo_bool name def false w).2 = w /\
     _configOptions (GetOption_bool StringTo_bool name def true w).2
       = _configOptions w).
Proof.
  split; [|split]; intros def.
  - rewrite !GetOption_run.
    destruct (_configOptions w !! name) as [second|]; [|done].
    by destruct (StringTo second).
  - unfold GetOption_string. rewrite !GetValueDefault_string_run.
    by destruct (_configOptions w !! name).
  - destruct (GetOption_bool_run StringTo_bool name def true w) as (evs1 & -> & _).
    destruct (GetOption_bool_run StringTo_bool name def false w) as (evs0 & -> & He).
    rewrite He by done. simpl. by rewrite emits_nil.
Qed.

(* ===================================================================== *)
(** ** Further properties: a load as an operation on tables *)
(* ===================================================================== *)

Lemma loop_outcome_file_table file in_ ls :
  loop_outcome file in_ locals0 = Returns ls ->
  fileConfigs ls = file_table in_ /\
  count ls = Z.of_nat (size (file_table in_)) mod 2 ^ 32.
Proof.
  intros Hl.
  pose proof (loop_outcome_fileConfigs _ _ _ _ Hl) as Hf.
  simpl in Hf. rewrite (left_id_L ∅ (∪)) in Hf.
  pose proof (loop_outcome_count _ _ _ _ locals0_count Hl) as Hc.
  unfold count_agrees in Hc. rewrite Hf in Hc. done.
Qed.

Lemma loop_outcome_throws file in_ ls e :
  loop_outcome file in_ ls = Throws e -> readable in_ = false.
Proof.
  intros H. destruct (readable in_) eqn:Hr; [|done].
  destruct (loop_outcome_readable file in_ ls Hr) as [ls' Hl]. congruence.
Qed.

(** What [LoadFile] does with a file that opens. *)
Lemma LoadFile_spec file w in_ :
  disk w file = Some in_ ->
  exists evs,
    LoadFile file w =
    (Returns (accepted in_),
     set_configOptions
       (if accepted in_ then file_table in_ ∪ _configOptions w else _configOptions w)
       (emits evs w)).
Proof.
  intros Hd. unfold accepted.
  destruct (loop_outcome file in_ locals0) as [ls|e] eqn:Hl.
  - rewrite (loop_outcome_returns _ _ _ _ Hl).
    destruct (loop_outcome_file_table _ _ _ Hl) as [Hf Hc].
    rewrite <- Hc, <- Hf. simpl.
    destruct (decide (count ls = 0)) as [Hz|Hz].
    + rewrite (LoadFile_empty file in_ ls) by done. rewrite Hz. simpl. eauto.
    + rewrite (LoadFile_merges file in_ ls) by done.
      apply Z.eqb_neq in Hz. rewrite Hz. simpl. eauto.
  - rewrite (loop_outcome_throws _ _ _ _ Hl). simpl.
    rewrite (LoadFile_throws file in_ e) by done. eauto.
Qed.

Lemma LoadFile_filename file w : _filename (LoadFile file w).2 = _filename w.
Proof. by destruct (LoadFile_run file w). Qed.

Lemma LoadFile_output file w :
  exists evs, output (LoadFile file w).2 = output w ++ evs.
Proof. destruct (LoadFile_opens file w) as (evs & H & _). eauto. Qed.

Lemma file_table_empty_iff in_ : file_table in_ = ∅ <-> entries in_ = [].
Proof.
  unfold file_table. split.
  - destruct (entries in_) as [|[k v] l]; [done|].
    rewrite list_to_map_cons. intros H. by apply insert_non_empty in H.
  - by intros ->.
Qed.

Lemma file_table_size in_ :
  (size (file_table in_) <= length (lines in_))%nat.
Proof.
  unfold file_table. etrans; [apply list_to_map_size|apply entries_length].
Qed.

Lemma file_table_None in_ k : k ∉ (entries in_).*1 -> file_table in_ !! k = None.
Proof. apply not_elem_of_list_to_map_1. Qed.

(** X1: no exception leaves a load -- [LoadFile], [LoadInitial],
    [LoadAdditionalFile] and [LoadAppConfigs] always return a boolean -- and
    a load changes neither the configured filename nor the files; what was
    output before it is still there, in front of what it adds. *)
Theorem X1_loads_never_throw (w : World) (file : string) :
  (exists b, (LoadFile file w).1 = Returns b) /\
  (exists b, (LoadInitial file w).1 = Returns b) /\
  (exists b, (LoadAdditionalFile file w).1 = Returns b) /\
  (exists b, (LoadAppConfigs w).1 = Returns b) /\
  _filename (LoadInitial file w).2 = _filename w /\
  _filename (LoadAdditionalFile file w).2 = _filename w /\
  disk (LoadInitial file w).2 = disk w /\
  disk (LoadAdditionalFile file w).2 = disk w /\
  (exists evs, output (LoadInitial file w).2 = output w ++ evs) /\
  (exists evs, output (LoadAdditionalFile file w).2 = output w ++ evs).
Proof.
  unfold LoadAdditionalFile. rewrite ?LoadInitial_unfold.
  repeat split.
  - apply LoadFile_returns.
  - apply LoadFile_returns.
  - apply LoadFile_returns.
  - unfold LoadAppConfigs. run. rewrite LoadInitial_unfold.
    destruct (LoadFile_returns (_filename w +:+ ".dist") (set_configOptions ∅ w))
      as [b Hb].
    destruct (LoadFile _ _) as [r w']. simpl in Hb. subst r.
    destruct b; simpl; eauto.
  - by rewrite LoadFile_filename.
  - by rewrite LoadFile_filename.
  - by rewrite LoadFile_disk.
  - by rewrite LoadFile_disk.
  - apply (LoadFile_output file (set_configOptions ∅ w)).
  - apply LoadFile_output.
Qed.

(** X2: a load returns true exactly when the file opens, is read to its end
    without a read error, and the number of its different keys is not a
    multiple of 2^32 (the 32-bit [count]); for a file of fewer than 2^32
    lines: exactly when it is read to its end and holds a key/value line. *)
Theorem X2_load_succeeds_iff (w : World) (file : string) :
  ((LoadFile file w).1 = Returns true <->
   exists in_, disk w file = Some in_ /\ readable in_ = true /\
               Z.of_nat (size (file_table in_)) mod 2 ^ 32 <> 0) /\
  (forall in_,
     disk w file = Some in_ ->
     Z.of_nat (length (lines in_)) < 2 ^ 32 ->
     ((LoadFile file w).1 = Returns true <->
      readable in_ = true /\ entries in_ <> [])).
Proof.
  assert (Hacc : forall in_, accepted in_ = true <->
            readable in_ = true /\ Z.of_nat (size (file_table in_)) mod 2 ^ 32 <> 0).
  { intros in_. unfold accepted. rewrite andb_true_iff, negb_true_iff, Z.eqb_neq. done. }
  split.
  - destruct (disk w file) as [in_|] eqn:Hd.
    + destruct (LoadFile_spec file w in_ Hd) as [evs ->]. simpl. split.
      * intros [= H]. exists in_. split; [done|]. by apply Hacc.
      * intros (in' & [= <-] & H). f_equal. by apply Hacc.
    + rewrite LoadFile_no_file by done. simpl. split; [done|].
      by intros (in' & ? & _).
  - intros in_ Hd Hlen.
    destruct (LoadFile_spec file w in_ Hd) as [evs ->]. simpl.
    pose proof (file_table_size in_) as Hsz.
    rewrite <- file_table_empty_iff, <- map_size_empty_iff.
    split.
    + intros [= H]. apply Hacc in H as [Hr Hm]. split; [done|].
      intros Hz. rewrite Hz in Hm. done.
    + intros [Hr Hz]. f_equal. apply Hacc. split; [done|].
      rewrite Z.mod_small by lia. lia.
Qed.

Lemma X2_witness :
  (LoadFile "world.conf.dist" example_world).1 = Returns true /\
  (LoadFile "comments.conf" example_world).1 = Returns false /\
  (LoadFile "broken.conf" example_world).1 = Returns false /\
  (LoadFile "missing.conf" example_world).1 = Returns false.
Proof.
  assert (Hlen : Z.of_nat (length (lines example_conf)) < 2 ^ 32) by reflexivity.
  split.
  - apply (proj2 (X2_load_succeeds_iff example_world "world.conf.dist")
             example_conf eq_refl Hlen).
    split; [reflexivity|discriminate].
  - repeat split; reflexivity.
Defined.

(** X3: after a load that returned true the table is known as a whole.
    After [LoadAdditionalFile] it is the table of the file -- the first
    value of each key of the file -- over the table before the load; after
    [LoadInitial] it is the table of the file, whatever the table held
    before. *)
Theorem X3_loaded_table (w : World) (file : string) (in_ : ifstream) :
  disk w file = Some in_ ->
  ((LoadAdditionalFile file w).1 = Returns true ->
   _configOptions (LoadAdditionalFile file w).2 = file_table in_ ∪ _configOptions w) /\
  ((LoadInitial file w).1 = Returns true ->
   _configOptions (LoadInitial file w).2 = file_table in_).
Proof.
  intros Hd. unfold LoadAdditionalFile. rewrite ?LoadInitial_unfold. split.
  - destruct (LoadFile_spec file w in_ Hd) as [evs ->]. simpl.
    by intros [= ->].
  - destruct (LoadFile_spec file (set_configOptions ∅ w) in_ Hd) as [evs ->].
    simpl. intros [= ->]. by rewrite (right_id_L ∅ (∪)).
Qed.

Lemma X3_witness :
  _configOptions (LoadAdditionalFile "override.conf" example_world).2
    = {[ "Port" := "7000"; "Log.Level" := "3" ]} /\
  _configOptions (LoadInitial "world.conf.dist" example_world).2
    = {[ "Port" := "8085"; "Name" := "MyServer" ]}.
Proof.
  destruct (X3_loaded_table example_world "override.conf" override_conf eq_refl)
    as [H1 _].
  destruct (X3_loaded_table example_world "world.conf.dist" example_conf eq_refl)
    as [_ H2].
  rewrite (H1 eq_refl), (H2 eq_refl). split; vm_compute; reflexivity.
Defined.

(** X4: [LoadAdditionalFile] leaves alone every option the file does not
    define, whether the load succeeds or fails. *)
Theorem X4_additional_load_frame (w : World) (file k : string) :
  (forall in_, disk w file = Some in_ -> k ∉ (entries in_).*1) ->
  _configOptions (LoadAdditionalFile file w).2 !! k = _configOptions w !! k.
Proof.
  intros Hk. unfold LoadAdditionalFile.
  destruct (disk w file) as [in_|] eqn:Hd.
  - destruct (LoadFile_spec file w in_ Hd) as [evs ->]. simpl.
    destruct (accepted in_); [|done].
    rewrite lookup_union_r; [done|]. by apply file_table_None, Hk.
  - by rewrite LoadFile_no_file.
Qed.

Lemma X4_witness :
  _configOptions (LoadAdditionalFile "override.conf" flags_world_1).2 !! "flag"
  = Some "1".
Proof.
  rewrite (X4_additional_load_frame flags_world_1 "override.conf" "flag").
  - reflexivity.
  - intros in_ [= <-]. apply (bool_decide_unpack _). vm_compute. exact I.
Defined.

(** X5: loading the same file a second time returns what the first load
    returned and leaves the table as the first load left it. *)
Theorem X5_reload_is_idempotent (w : World) (file : string) :
  (LoadAdditionalFile file (LoadAdditionalFile file w).2).1
    = (LoadAdditionalFile file w).1 /\
  _configOptions (LoadAdditionalFile file (LoadAdditionalFile file w).2).2
    = _configOptions (LoadAdditionalFile file w).2.
Proof.
  unfold LoadAdditionalFile.
  destruct (disk w file) as [in_|] eqn:Hd.
  - destruct (LoadFile_spec file w in_ Hd) as [evs ->]. simpl.
    match goal with |- context [LoadFile file ?w1] =>
      destruct (LoadFile_spec file w1 in_ Hd) as [evs' ->] end.
    simpl. split; [done|].
    destruct (accepted in_); [|done].
    by rewrite (assoc_L (∪)), (idemp_L (∪)).
  - rewrite (LoadFile_no_file file w) by done. simpl.
    by rewrite LoadFile_no_file.
Qed.

(** X6: two files that have no key in common can be loaded in either
    order: each load returns the same boolean and the table is the same at
    the end. *)
Theorem X6_disjoint_files_commute (w : World) (A B : string) (inA inB : ifstream) :
  disk w A = Some inA ->
  disk w B = Some inB ->
  (forall k, k ∈ (entries inA).*1 -> k ∉ (entries inB).*1) ->
  (LoadAdditionalFile B (LoadAdditionalFile A w).2).1 = (LoadAdditionalFile B w).1 /\
  (LoadAdditionalFile A (LoadAdditionalFile B w).2).1 = (LoadAdditionalFile A w).1 /\
  _configOptions (LoadAdditionalFile B (LoadAdditionalFile A w).2).2
    = _configOptions (LoadAdditionalFile A (LoadAdditionalFile B w).2).2.
Proof.
  intros HdA HdB Hdisj. unfold LoadAdditionalFile.
  assert (Hd : file_table inA ##ₘ file_table inB).
  { apply map_disjoint_alt. intros k.
    destruct (decide (k ∈ (entries inA).*1)) as [Hin|Hin].
    - right. by apply file_table_None, Hdisj.
    - left. by apply file_table_None. }
  destruct (LoadFile_spec A w inA HdA) as [evsA ->].
  destruct (LoadFile_spec B w inB HdB) as [evsB ->]. simpl.
  match goal with |- context [LoadFile B ?w1] =>
    destruct (LoadFile_spec B w1 inB HdB) as [evsB' ->] end.
  match goal with |- context [LoadFile A ?w1] =>
    destruct (LoadFile_spec A w1 inA HdA) as [evsA' ->] end.
  simpl. split; [done|]. split; [done|].
  destruct (accepted inA), (accepted inB); try done.
  rewrite !(assoc_L (∪)). f_equal. by apply map_union_comm.
Qed.

Lemma X6_witness :
  _configOptions (LoadAdditionalFile "c.conf" (LoadAdditionalFile "a.conf" layers_world).2).2
  = _configOptions (LoadAdditionalFile "a.conf" (LoadAdditionalFile "c.conf" layers_world).2).2.
Proof.
  apply (X6_disjoint_files_commute layers_world "a.conf" "c.conf"
           (text ["Port = 1"; "Name = x"]) (text ["Log.Level = 3"; "k # = v"])).
  - reflexivity.
  - reflexivity.
  - intros k Hk. apply (bool_decide_unpack _).
    vm_compute in Hk.
    apply elem_of_cons in Hk as [->|Hk]; [vm_compute; exact I|].
    apply elem_of_cons in Hk as [->|Hk]; [vm_compute; exact I|].
    by apply elem_of_nil in Hk.
Defined.

(** X7: when no key is defined twice, the order of the lines of a file does
    not matter: two files that are read to their ends and hold the same
    key/value pairs in different orders load alike. *)
Theorem X7_line_order_is_irrelevant (w : World) (A B : string) (inA inB : ifstream) :
  disk w A = Some inA ->
  disk w B = Some inB ->
  readable inA = true ->
  readable inB = true ->
  NoDup (entries inA).*1 ->
  entries inA ≡ₚ entries inB ->
  (LoadAdditionalFile A w).1 = (LoadAdditionalFile B w).1 /\
  _configOptions (LoadAdditionalFile A w).2 = _configOptions (LoadAdditionalFile B w).2.
Proof.
  intros HdA HdB HrA HrB Hnd Hperm. unfold LoadAdditionalFile.
  assert (Ht : file_table inA = file_table inB)
    by (by apply list_to_map_proper).
  assert (Ha : accepted inA = accepted inB)
    by (unfold accepted; by rewrite HrA, HrB, Ht).
  destruct (LoadFile_spec A w inA HdA) as [evsA ->].
  destruct (LoadFile_spec B w inB HdB) as [evsB ->]. simpl.
  by rewrite Ha, Ht.
Qed.

Lemma X7_witness :
  (LoadAdditionalFile "a.conf" layers_world).1
    = (LoadAdditionalFile "b.conf" layers_world).1 /\
  _configOptions (LoadAdditionalFile "a.conf" layers_world).2
    = _configOptions (LoadAdditionalFile "b.conf" layers_world).2.
Proof.
  apply (X7_line_order_is_irrelevant layers_world "a.conf" "b.conf"
           (text ["Port = 1"; "Name = x"]) (text ["Name = x"; "Port = 1"]));
    try reflexivity.
  - apply (bool_decide_unpack _). vm_compute. exact I.
  - apply perm_swap.
Defined.

(* ===================================================================== *)
(** ** Further properties: what a load reports *)
(* ===================================================================== *)

Lemma after_line_lineNumber line ls :
  lineNumber (after_line line ls) = lineNumber ls.
Proof.
  unfold after_line. destruct (ParseLine line); [done..|].
  by destruct (fileConfigs ls !! entry).
Qed.

Lemma uint32_incr_add (n k : Z) :
  (uint32_incr n + k) mod 2 ^ 32 = (n + (k + 1)) mod 2 ^ 32.
Proof.
  unfold uint32_incr. rewrite Zplus_mod_idemp_l. f_equal. lia.
Qed.

(** The line number in the exception of a failed read. *)
Lemma loop_outcome_error_line file in_ : forall ls,
  readable in_ = false ->
  loop_outcome file in_ ls =
  Throws (FailureReadLine
            ((lineNumber ls + (Z.of_nat (length (lines in_)) + 1)) mod 2 ^ 32) file).
Proof.
  induction in_ as [line rest IH|line|]; intros ls Hr; simpl in *.
  - rewrite IH by done. rewrite after_line_lineNumber. simpl.
    rewrite uint32_incr_add. do 3 f_equal. lia.
  - done.
  - unfold uint32_incr. done.
Qed.

(** X8: when a read fails before the end of the file, the exception of
    [ParseFile] carries the number of the line that could not be read,
    counted from 1 as a [uint32]: one more than the number of lines read
    before it.  [LoadFile] logs this exception and returns false. *)
Theorem X8_read_error_line_number (w : World) (file : string) (in_ : ifstream) :
  disk w file = Some in_ ->
  readable in_ = false ->
  let n := (Z.of_nat (length (lines in_)) + 1) mod 2 ^ 32 in
  (Z.of_nat (length (lines in_)) + 1 < 2 ^ 32 ->
   n = Z.of_nat (length (lines in_)) + 1) /\
  exists w1,
    ParseFile file w = (Throws (FailureReadLine n file), w1) /\
    LoadFile file w
      = (Returns false, emit (LogError "%s" (What (FailureReadLine n file))) w1).
Proof.
  intros Hd Hr n. split.
  - intros Hlt. unfold n. apply Z.mod_small. lia.
  - assert (Hp : ParseFile file w =
      (Throws (FailureReadLine n file),
       emits (loop_events file in_ locals0) (emit (Open file) w))).
    { unfold ParseFile. run. simpl. rewrite Hd. fold locals0.
      rewrite ParseLoop_run, (loop_outcome_error_line file in_ locals0 Hr). done. }
    eexists. split; [exact Hp|]. by apply LoadFile_catches.
Qed.

Lemma X8_witness :
  exists w1,
    ParseFile "torn.conf" layers_world
      = (Throws (FailureReadLine 3 "torn.conf"), w1) /\
    LoadFile "torn.conf" layers_world
      = (Returns false,
         emit (LogError "%s" (What (FailureReadLine 3 "torn.conf"))) w1).
Proof.
  exact (proj2 (X8_read_error_line_number layers_world "torn.conf"
                  (got_line "Port = 1" (got_line "oops" hit_error))
                  eq_refl eq_refl)).
Defined.

(** The events of a load, by cases. *)
Lemma LoadFile_events file w in_ :
  disk w file = Some in_ ->
  exists last,
    output (LoadFile file w).2
      = output w ++ Open file :: loop_events file in_ locals0 ++ last /\
    (last = [] \/ exists e, last = [LogError "%s" (What e)]).
Proof.
  intros Hd.
  destruct (LoadFile_run file w) as [Hn|in' e Hd' Hl|in' ls Hd' Hl Hc|in' ls Hd' Hl Hc];
    [congruence|..];
    rewrite Hd in Hd'; injection Hd' as <-; simpl.
  - eexists. split; [done|]. eauto.
  - eexists. split; [done|]. eauto.
  - exists []. rewrite app_nil_r. split; [done|]. by left.
Qed.

(** X9: a line without an equals sign (one that is not empty, a comment or
    a section header) is reported, whatever becomes of the rest of the
    file, with its number in the file counted from 1, as a [uint32]. *)
Theorem X9_malformed_line_number (w : World) (file : string) (in_ : ifstream)
    (i : nat) (l : string) :
  disk w file = Some in_ ->
  lines in_ !! i = Some l ->
  ParseLine l = Malformed ->
  exists evs,
    output (LoadFile file w).2 = output w ++ evs /\
    LogError "%s" (SkipLine ((Z.of_nat i + 1) mod 2 ^ 32) file) ∈ evs.
Proof.
  intros Hd Hi Hm.
  destruct (LoadFile_events file w in_ Hd) as (last & -> & _).
  eexists. split; [done|].
  apply elem_of_cons. right. apply elem_of_app. left.
  apply (malformed_line_logged file in_ locals0 i l Hi Hm).
Qed.

Lemma X9_witness :
  exists evs,
    output (LoadFile "torn.conf" layers_world).2 = output layers_world ++ evs /\
    LogError "%s" (SkipLine 2 "torn.conf") ∈ evs.
Proof.
  exact (X9_malformed_line_number layers_world "torn.conf"
           (got_line "Port = 1" (got_line "oops" hit_error)) 1 "oops"
           eq_refl eq_refl eq_refl).
Defined.

Lemma classes_ignored (ign P : Prop) (Q : string -> string -> Prop) :
  ign ->
  (Ignored = Ignored <-> ign) /\
  (Ignored = Malformed <-> ~ ign /\ P) /\
  (forall entry value, Ignored = KeyValue entry value <-> ~ ign /\ Q entry value).
Proof.
  intros Hi. split; [|split].
  - split; [by intros _|done].
  - split; [discriminate|]. intros [Hn _]. destruct (Hn Hi).
  - intros entry value. split; [discriminate|]. intros [Hn _]. destruct (Hn Hi).
Qed.

Lemma classes_malformed (ign P : Prop) (Q : string -> string -> Prop) :
  ~ ign -> P -> (forall entry value, ~ Q entry value) ->
  (Malformed = Ignored <-> ign) /\
  (Malformed = Malformed <-> ~ ign /\ P) /\
  (forall entry value, Malformed = KeyValue entry value <-> ~ ign /\ Q entry value).
Proof.
  intros Hn HP HQ. split; [|split].
  - split; [discriminate|]. intros Hi. destruct (Hn Hi).
  - split; [by intros _|done].
  - intros entry value. split; [discriminate|]. intros [_ Hq]. destruct (HQ _ _ Hq).
Qed.

Lemma classes_key_value (ign P : Prop) (Q : string -> string -> Prop) e0 v0 :
  ~ ign -> ~ P -> (forall entry value, Q entry value <-> entry = e0 /\ value = v0) ->
  (KeyValue e0 v0 = Ignored <-> ign) /\
  (KeyValue e0 v0 = Malformed <-> ~ ign /\ P) /\
  (forall entry value,
     KeyValue e0 v0 = KeyValue entry value <-> ~ ign /\ Q entry value).
Proof.
  intros Hn HP HQ. split; [|split].
  - split; [discriminate|]. intros Hi. destruct (Hn Hi).
  - split; [discriminate|]. intros [_ Hp]. destruct (HP Hp).
  - intros entry value. rewrite HQ. split.
    + intros [= <- <-]. done.
    + intros [_ [-> ->]]. done.
Qed.

(** X10: the three things [ParseFile] makes of a line.  It is ignored
    exactly when, trimmed, it is empty or begins with a number sign or an
    opening bracket; otherwise it is malformed exactly when, cut at its
    first number sign, it holds no equals sign -- the comparison of the
    position of the equals sign with the length of the line never holds --
    and else it is split at its first equals sign. *)
Theorem X10_line_classes (l : string) :
  let ignored :=
    Str.Trim l = EmptyString \/ begins_with "#" (Str.Trim l) = true
    \/ begins_with "[" (Str.Trim l) = true in
  let line := cut_comment (Str.Trim l) in
  (ParseLine l = Ignored <-> ignored) /\
  (ParseLine l = Malformed <-> ~ ignored /\ Str.find "=" line = None) /\
  (forall entry value,
     ParseLine l = KeyValue entry value <->
     ~ ignored /\
     exists equal_pos,
       Str.find "=" line = Some equal_pos /\
       entry = Str.Trim (Str.substr line 0 (Some equal_pos)) /\
       value = Str.erase_remove dquote
                 (Str.Trim (Str.substr line (equal_pos + 1) None))).
Proof.
  cbv zeta. unfold ParseLine.
  destruct (Str.Trim l) as [|c l'] eqn:Ht; simpl Str.empty; cbv iota.
  { apply classes_ignored. by left. }
  simpl begins_with.
  destruct (Ascii.eqb c "#") eqn:E1.
  { simpl orb. cbv iota. apply classes_ignored. right. by left. }
  destruct (Ascii.eqb c "[") eqn:E2.
  { simpl orb. cbv iota. apply classes_ignored. right. by right. }
  simpl orb. cbv iota.
  assert (Hni : ~ (String c l' = EmptyString \/ false = true \/ false = true)).
  { intros [H|[H|H]]; discriminate. }
  fold (cut_comment (String c l')).
  destruct (Str.find "=" (cut_comment (String c l'))) as [equal_pos|] eqn:Hf.
  - pose proof (find_lt_length _ _ _ Hf) as Hlt.
    replace (equal_pos =? Str.length (cut_comment (String c l')))%nat with false
      by (symmetry; apply Nat.eqb_neq; lia).
    apply classes_key_value; [done|discriminate|].
    intros entry value. split.
    + intros (p & [= <-] & -> & ->). done.
    + intros [-> ->]. by exists equal_pos.
  - apply classes_malformed; [done|done|].
    intros entry value (p & H & _). discriminate.
Qed.

(** X11: an equals sign that comes after the first number sign of a line
    does not count: the line is cut at the number sign first, so a line
    with text, a number sign and only then an equals sign is malformed. *)
Theorem X11_equals_in_comment (a b : string) :
  Str.find "=" a = None ->
  Str.find "#" a = None ->
  Str.Trim a <> EmptyString ->
  begins_with "[" (Str.Trim a) = false ->
  ParseLine (a +:+ "#" +:+ b) = Malformed.
Proof.
  intros He%find_None Hh%find_None Hne Hb.
  change ("#" +:+ b) with (String "#" b).
  destruct (Str.ltrim a) as [|c t] eqn:E.
  { destruct Hne. unfold Str.Trim. by rewrite E. }
  pose proof (ltrim_head _ _ _ E) as Hc.
  assert (Hlh : ~ Str.occurs "#" (String c t)).
  { rewrite <- E. by intros ?%occurs_ltrim. }
  assert (Hle : ~ Str.occurs "=" (String c t)).
  { rewrite <- E. by intros ?%occurs_ltrim. }
  apply (ParseLine_no_equals _ c (t +:+ String "#" (Str.rtrim b))).
  - unfold Str.Trim. rewrite ltrim_append, rtrim_append, E by done.
    by rewrite append_cons.
  - apply orb_false_intro.
    + apply Ascii.eqb_neq. intros ->. apply Hlh. by left.
    + unfold Str.Trim in Hb. rewrite E, rtrim_nonspace in Hb by done. exact Hb.
  - rewrite <- append_cons, cut_comment_at by done. by apply find_absent.
Qed.

Lemma X11_witness : ParseLine "k # = v" = Malformed.
Proof.
  apply (X11_equals_in_comment "k " " = v"); try reflexivity. discriminate.
Defined.

Lemma line_events_load_event file line ls :
  Forall (load_event file) (line_events file line ls).
Proof.
  unfold line_events. destruct (ParseLine line) as [| |entry value].
  - constructor.
  - by repeat constructor.
  - destruct (fileConfigs ls !! entry); by repeat constructor.
Qed.

Lemma loop_events_load_event file in_ : forall ls,
  Forall (load_event file) (loop_events file in_ ls).
Proof.
  induction in_ as [line rest IH|line|]; intros ls; simpl.
  - apply Forall_app. split; [apply line_events_load_event|apply IH].
  - apply line_events_load_event.
  - constructor.
Qed.

(** X12: all that a load outputs is the opening of its file and what
    [PrintError] logs under the filter [%s]: skipped lines and duplicate
    keys of this file, and the exception that ended the load.  It never
    reports that an option exists: options of the table that the file
    defines again are replaced without a word. *)
Theorem X12_load_output (w : World) (file : string) :
  exists evs,
    output (LoadFile file w).2 = output w ++ evs /\
    Forall (load_event file) evs /\
    (forall filter k old, LogError filter (OptionIsExist k old) ∉ evs).
Proof.
  assert (Hall : exists evs,
            output (LoadFile file w).2 = output w ++ evs /\
            Forall (load_event file) evs).
  { destruct (LoadFile_run file w) as [Hn|in_ e Hd Hl|in_ ls Hd Hl Hc|in_ ls Hd Hl Hc];
      simpl; eexists; (split; [reflexivity|]).
    - by repeat constructor.
    - constructor; [done|]. apply Forall_app.
      split; [apply loop_events_load_event|by repeat constructor].
    - constructor; [done|]. apply Forall_app.
      split; [apply loop_events_load_event|by repeat constructor].
    - constructor; [done|]. apply loop_events_load_event. }
  destruct Hall as (evs & Ho & Hf). exists evs. split; [done|]. split; [done|].
  intros filter k old Hin.
  rewrite Forall_forall in Hf. by apply Hf in Hin.
Qed.

(** X13: [AddKey] returns normally; afterwards the option is in the table,
    with the new value when [replace] is set or the option was not there,
    and with the value it had otherwise; every other option is as before,
    and the table has grown by one entry exactly when the option was not
    there. *)
Theorem X13_AddKey_sets_one_key (w : World) (k v : string) (replace : bool) :
  (AddKey k v replace w).1 = Returns tt /\
  _configOptions (AddKey k v replace w).2 !! k
    = Some (if replace then v else default v (_configOptions w !! k)) /\
  (forall k', k' <> k ->
     _configOptions (AddKey k v replace w).2 !! k' = _configOptions w !! k') /\
  size (_configOptions (AddKey k v replace w).2)
    = match _configOptions w !! k with
      | Some _ => size (_configOptions w)
      | None => S (size (_configOptions w))
      end.
Proof.
  destruct (_configOptions w !! k) as [old|] eqn:E.
  - destruct replace.
    + rewrite AddKey_replace. simpl.
      split; [done|]. split; [apply lookup_insert_eq|].
      split; [intros k' Hk'; by apply lookup_insert_ne|].
      rewrite map_size_insert, E. done.
    + rewrite (AddKey_keep k v old) by done. simpl. by rewrite E.
  - rewrite AddKey_absent by done. simpl.
    split; [done|]. split; [rewrite lookup_insert_eq; by destruct replace|].
    split; [intros k' Hk'; by apply lookup_insert_ne|].
    by rewrite map_size_insert, E.
Qed.

Lemma filter_all {A} (P : A -> Prop) `{forall x, Decision (P x)} (l : list A) :
  (forall x, P x) -> filter P l = l.
Proof.
  intros HP. induction l as [|x l IH]; [done|].
  rewrite filter_cons, decide_True by done. by rewrite IH.
Qed.

(** X14: with the empty prefix [GetKeysByString] returns every name of the
    table, each once, and leaves the table alone. *)
Theorem X14_empty_prefix_lists_all (w : World) :
  exists keys,
    GetKeysByString EmptyString w = (Returns keys, w) /\
    NoDup keys /\
    length keys = size (_configOptions w) /\
    (forall k, k ∈ keys <-> is_Some (_configOptions w !! k)).
Proof.
  rewrite GetKeysByString_run. eexists. split; [reflexivity|].
  rewrite filter_all by done.
  split; [apply NoDup_fst_map_to_list|].
  split; [by rewrite length_fmap, length_map_to_list|].
  intros k. rewrite list_elem_of_fmap. split.
  - intros [[k' v] [-> Hin]]. apply elem_of_map_to_list in Hin. by exists v.
  - intros [v Hv]. exists (k, v). split; [done|]. by apply elem_of_map_to_list.
Qed.

(** X15: what a file defines can be read back.  After a successful load,
    [GetOption] for a key of the file returns the value of the first line
    that defines it -- as it is for a string, converted for another type --
    and not the default; nothing is logged. *)
Theorem X15_load_then_get {T : Type}
    (StringTo : string -> option T) (ToString : T -> string)
    (w w' : World) (file : string) (in_ : ifstream) (k v : string)
    (pre post : list (string * string)) :
  disk w file = Some in_ ->
  entries in_ = pre ++ (k, v) :: post ->
  k ∉ pre.*1 ->
  LoadFile file w = (Returns true, w') ->
  (forall def showLogs, GetOption_string k def showLogs w' = (Returns v, w')) /\
  (forall def showLogs value,
     StringTo v = Some value ->
     GetOption StringTo ToString k def showLogs w' = (Returns value, w')).
Proof.
  intros Hd He Hpre Hload.
  assert (Hk : _configOptions w' !! k = Some v).
  { rewrite (LoadFile_true_lookup _ _ _ in_ k Hload Hd), He.
    rewrite list_to_map_first by done. by rewrite union_Some_l. }
  split.
  - intros def showLogs. unfold GetOption_string.
    by rewrite GetValueDefault_string_run, Hk.
  - intros def showLogs value Hv. by rewrite GetOption_run, Hk, Hv.
Qed.

Lemma X15_witness :
  let w' := (LoadFile "a.conf" layers_world).2 in
  GetOption_string "Port" "none" true w' = (Returns "1", w') /\
  GetOption StringTo_bool_canonical (fun _ => EmptyString) "Port" false true w'
    = (Returns true, w').
Proof.
  destruct (X15_load_then_get StringTo_bool_canonical (fun _ => EmptyString)
              layers_world (LoadFile "a.conf" layers_world).2
              "a.conf" (text ["Port = 1"; "Name = x"]) "Port" "1"
              [] [("Name", "x")]) as [H1 H2].
  - reflexivity.
  - reflexivity.
  - intros Hin. inversion Hin.
  - reflexivity.
  - split; [apply H1|]. apply H2. reflexivity.
Defined.

(* ===================================================================== *)
(** ** Further properties: the other functions *)
(* ===================================================================== *)

Lemma find_Some_occurs c (s : string) pos :
  Str.find c s = Some pos -> Str.occurs c s.
Proof.
  intros H. destruct (Str.find c s) eqn:E; [|done].
  revert E. clear H. revert n. induction s as [|a s IH]; intros n; [done|].
  simpl. destruct (Ascii.eqb_spec a c) as [->|Hne]; [by left|].
  destruct (Str.find c s) as [q|]; [|done]. intros _. right. by apply (IH q).
Qed.

Lemma find_first_of_None (set s : string) :
  find_first_of set s = None <->
  forall c, Str.occurs c s -> ~ Str.occurs c set.
Proof.
  induction s as [|a s IH]; simpl.
  - split; [by intros _ c []|done].
  - destruct (Str.find a set) as [pos|] eqn:E.
    + split; [done|]. intros H. apply find_Some_occurs in E.
      destruct (H a); [by left|done].
    + rewrite fmap_None, IH. split.
      * intros H c [<-|Hc]; [by apply find_None|by apply H].
      * intros H c Hc. apply H. by right.
Qed.

Lemma find_first_of_Some (set s : string) pos :
  find_first_of set s = Some pos ->
  exists c, Str.occurs c s /\ Str.occurs c set.
Proof.
  revert pos. induction s as [|a s IH]; intros pos; [done|]. simpl.
  destruct (Str.find a set) as [q|] eqn:E.
  - intros _. exists a. split; [by left|]. by apply (find_Some_occurs _ _ q).
  - destruct (find_first_of set s) as [r|]; [|done]. intros _.
    destruct (IH r eq_refl) as (c & H1 & H2). exists c. split; [by right|done].
Qed.

(** X16: [IsAppConfig] does not look for the names [authserver.conf] and
    [worldserver.conf] in the file name: it answers true exactly when the
    file name holds at least one character that occurs in one of these two
    names.  So it is true of every file name with a dot in it. *)
Theorem X16_IsAppConfig_is_a_character_test (fileName : string) :
  (IsAppConfig fileName = true <->
   exists c, Str.occurs c fileName /\
             (Str.occurs c "authserver.conf" \/ Str.occurs c "worldserver.conf")) /\
  (forall a b, fileName = a +:+ "." +:+ b -> IsAppConfig fileName = true).
Proof.
  assert (Hiff : IsAppConfig fileName = true <->
   exists c, Str.occurs c fileName /\
             (Str.occurs c "authserver.conf" \/ Str.occurs c "worldserver.conf")).
  { unfold IsAppConfig.
    destruct (find_first_of "authserver.conf" fileName) as [p|] eqn:E1.
    - split; [intros _|done].
      destruct (find_first_of_Some "authserver.conf" fileName p E1) as (c & H1 & H2).
      exists c. split; [done|]. by left.
    - destruct (find_first_of "worldserver.conf" fileName) as [p|] eqn:E2.
      + split; [intros _|done].
        destruct (find_first_of_Some "worldserver.conf" fileName p E2) as (c & H1 & H2).
        exists c. split; [done|]. by right.
      + split; [done|]. intros (c & Hc & [H|H]).
        * destruct (proj1 (find_first_of_None _ _) E1 c Hc H).
        * destruct (proj1 (find_first_of_None _ _) E2 c Hc H). }
  split; [exact Hiff|].
  intros a b ->. apply Hiff. exists "."%char. split.
  - apply occurs_append. right. by left.
  - left. apply (find_Some_occurs _ _ 10). reflexivity.
Qed.

Lemma X16_witness : IsAppConfig "data.txt" = true.
Proof.
  exact (proj2 (X16_IsAppConfig_is_a_character_test "data.txt") "data" "txt" eq_refl).
Defined.

(** X17: the name given to [Configure] is the one [GetFilename] returns and
    the one [LoadAppConfigs] uses: it opens this name followed by ".dist"
    and nothing else, and the configured name is the same after the load.
    [GetConfigPath] is "configs/" whatever was configured. *)
Theorem X17_configured_name (w : World) (initFileName : string) :
  exists (w1 w2 : World) (b : bool) (evs : list Event),
    Configure initFileName w = (Returns tt, w1) /\
    GetFilename w1 = (Returns initFileName, w1) /\
    LoadAppConfigs w1 = (Returns b, w2) /\
    output w2 = output w ++ evs /\
    opens evs = [initFileName +:+ ".dist"] /\
    GetFilename w2 = (Returns initFileName, w2) /\
    GetConfigPath w2 = (Returns "configs/", w2).
Proof.
  set (w1 := set_filename initFileName w).
  set (file := initFileName +:+ ".dist").
  destruct (LoadFile_returns file (set_configOptions ∅ w1)) as [b Hb].
  destruct (LoadFile_opens file (set_configOptions ∅ w1)) as (evs & Ho & He).
  pose proof (LoadFile_filename file (set_configOptions ∅ w1)) as Hf.
  exists w1, (LoadFile file (set_configOptions ∅ w1)).2, b, evs.
  split; [done|]. split; [done|]. split.
  - unfold LoadAppConfigs. run. rewrite LoadInitial_unfold.
    change (_filename w1 +:+ ".dist") with file.
    destruct (LoadFile file (set_configOptions ∅ w1)) as [r w2].
    simpl in Hb. subst r. by destruct b.
  - split; [exact Ho|]. split; [exact He|].
    split; [|done]. unfold GetFilename. run. by rewrite Hf.
Qed.

Lemma how_many_app {A} (p : A -> bool) (l1 l2 : list A) :
  how_many p (l1 ++ l2) = (how_many p l1 + how_many p l2)%nat.
Proof. induction l1 as [|x l1 IH]; [done|]. simpl. rewrite IH. lia. Qed.

Lemma line_accounting file line ls :
  (how_many is_duplicate_report (line_events file line (next_line ls))
   + size (fileConfigs (after_line line (next_line ls))))%nat
  = (length (entry_of line) + size (fileConfigs ls))%nat.
Proof.
  unfold line_events, after_line, entry_of. simpl.
  destruct (ParseLine line) as [| |entry value]; simpl; try done.
  destruct (fileConfigs ls !! entry) as [x|] eqn:E; simpl; [done|].
  by rewrite map_size_insert_None.
Qed.

Lemma loop_accounting file in_ : forall ls,
  (how_many is_duplicate_report (loop_events file in_ ls)
   + size (fileConfigs ls ∪ list_to_map (entries in_)))%nat
  = (length (entries in_) + size (fileConfigs ls))%nat.
Proof.
  induction in_ as [line rest IH|line|]; intros ls.
  - simpl loop_events. rewrite how_many_app, entries_got_line, length_app.
    rewrite list_to_map_app_first, (assoc_L (∪)), <- after_line_fileConfigs.
    pose proof (IH (after_line line (next_line ls))) as H1.
    pose proof (line_accounting file line ls) as H2. lia.
  - simpl loop_events. rewrite entries_hit_eof, <- after_line_fileConfigs.
    apply line_accounting.
  - simpl. by rewrite (right_id_L ∅ (∪)).
Qed.

Lemma line_skips file line ls :
  how_many is_skip_report (line_events file line ls)
  = if is_malformed line then 1%nat else 0%nat.
Proof.
  unfold line_events, is_malformed.
  destruct (ParseLine line) as [| |entry value]; [done..|].
  by destruct (fileConfigs ls !! entry).
Qed.

Lemma loop_skips file in_ : forall ls,
  how_many is_skip_report (loop_events file in_ ls) = how_many is_malformed (lines in_).
Proof.
  induction in_ as [line rest IH|line|]; intros ls; simpl.
  - by rewrite how_many_app, line_skips, IH.
  - rewrite line_skips. lia.
  - done.
Qed.

(** X18: every line is accounted for.  Among the lines read, each
    key/value line is either the first of its key, and then an entry of the
    table of the file, or reported as a duplicate: the duplicate-key
    diagnostics and the keys of the file add up to the key/value lines.
    And there are as many skipped-line diagnostics as malformed lines. *)
Theorem X18_every_line_accounted_for (w : World) (file : string) (in_ : ifstream) :
  disk w file = Some in_ ->
  exists evs,
    output (LoadFile file w).2 = output w ++ evs /\
    (how_many is_duplicate_report evs + size (file_table in_))%nat
      = length (entries in_) /\
    how_many is_skip_report evs = how_many is_malformed (lines in_).
Proof.
  intros Hd. destruct (LoadFile_events file w in_ Hd) as (last & Ho & Hlast).
  eexists. split; [exact Ho|].
  assert (Hl : how_many is_duplicate_report last = 0%nat
               /\ how_many is_skip_report last = 0%nat).
  { destruct Hlast as [->|[e ->]]; done. }
  destruct Hl as [Hl1 Hl2]. simpl.
  rewrite !how_many_app, Hl1, Hl2, loop_skips. split; [|lia].
  pose proof (loop_accounting file in_ locals0) as H.
  change (fileConfigs locals0) with (∅ : gmap string string) in H.
  rewrite (left_id_L ∅ (∪)), map_size_empty in H. unfold file_table. lia.
Qed.

Lemma X18_witness :
  exists evs,
    output (LoadFile "world.conf.dist" example_world).2
      = output example_world ++ evs /\
    (how_many is_duplicate_report evs + 2)%nat = 3%nat /\
    how_many is_skip_report evs = 0%nat.
Proof.
  exact (X18_every_line_accounted_for example_world "world.conf.dist"
           example_conf eq_refl).
Defined.

(** X19: the name of an option is not checked: a line that begins with the
    equals sign defines the option with the empty name. *)
Theorem X19_empty_key (value : string) :
  Str.find "#" value = None ->
  ParseLine ("=" +:+ value)
  = KeyValue EmptyString (Str.erase_remove dquote (Str.Trim value)).
Proof.
  intros Hv.
  assert (Hwf : well_formed EmptyString value EmptyString).
  { split; try done. by left. }
  apply ParseLine_well_formed in Hwf.
  by rewrite append_empty_l, append_empty_r in Hwf.
Qed.

Lemma X19_witness : ParseLine "= 5" = KeyValue EmptyString "5".
Proof. exact (X19_empty_key " 5" eq_refl). Defined.

(** X20: [LoadInitial] forgets the table it finds.  What it returns and
    the table it leaves depend on the file only, not on the table before
    the call; and when it returns false -- whatever the reason -- the table
    is empty. *)
Theorem X20_initial_load_forgets (w1 w2 : World) (file : string) :
  disk w1 file = disk w2 file ->
  (LoadInitial file w1).1 = (LoadInitial file w2).1 /\
  _configOptions (LoadInitial file w1).2 = _configOptions (LoadInitial file w2).2 /\
  ((LoadInitial file w1).1 = Returns false ->
   _configOptions (LoadInitial file w1).2 = ∅).
Proof.
  intros Hd. rewrite !LoadInitial_unfold.
  destruct (disk w1 file) as [in_|] eqn:Hd1.
  - symmetry in Hd.
    destruct (LoadFile_spec file (set_configOptions ∅ w1) in_ Hd1) as [evs1 ->].
    destruct (LoadFile_spec file (set_configOptions ∅ w2) in_ Hd) as [evs2 ->].
    simpl. split; [done|]. split; [done|].
    destruct (accepted in_); [discriminate|done].
  - symmetry in Hd.
    rewrite (LoadFile_no_file file (set_configOptions ∅ w1)) by done.
    rewrite (LoadFile_no_file file (set_configOptions ∅ w2)) by done.
    done.
Qed.

Lemma X20_witness :
  _configOptions (LoadInitial "missing.conf" example_world).2 = ∅ /\
  _configOptions (LoadInitial "override.conf" example_world).2
    = _configOptions (LoadInitial "override.conf" flags_world_1).2.
Proof.
  split.
  - apply (X20_initial_load_forgets example_world example_world "missing.conf" eq_refl).
    reflexivity.
  - apply (X20_initial_load_forgets example_world flags_world_1 "override.conf" eq_refl).
Defined.

(** X21: after a successful [LoadInitial] the names [GetKeysByString] lists
    for the empty prefix are the keys of the key/value lines of the file,
    no more and no less. *)
Theorem X21_keys_after_initial_load (w : World) (file : string) (in_ : ifstream) :
  disk w file = Some in_ ->
  (LoadInitial file w).1 = Returns true ->
  exists keys,
    GetKeysByString EmptyString (LoadInitial file w).2
      = (Returns keys, (LoadInitial file w).2) /\
    (forall k, k ∈ keys <-> k ∈ (entries in_).*1).
Proof.
  intros Hd. rewrite LoadInitial_unfold.
  destruct (LoadFile_spec file (set_configOptions ∅ w) in_ Hd) as [evs ->].
  simpl. intros [= ->]. rewrite GetKeysByString_run.
  eexists. split; [reflexivity|].
  intros k. rewrite filter_all by done. simpl.
  rewrite (right_id_L ∅ (∪)), list_elem_of_fmap. split.
  - intros [[k' v] [-> Hin]]. apply elem_of_map_to_list in Hin. simpl.
    destruct (decide (k' ∈ (entries in_).*1)) as [|Hn]; [done|].
    apply file_table_None in Hn. congruence.
  - intros Hin. destruct (file_table in_ !! k) as [v|] eqn:E.
    + exists (k, v). split; [done|]. by apply elem_of_map_to_list.
    + apply not_elem_of_list_to_map in E. done.
Qed.

Lemma X21_witness :
  exists keys,
    GetKeysByString EmptyString (LoadInitial "override.conf" example_world).2
      = (Returns keys, (LoadInitial "override.conf" example_world).2) /\
    (forall k, k ∈ keys <-> k ∈ ["Port"; "Log.Level"]).
Proof.
  exact (X21_keys_after_initial_load example_world "override.conf" override_conf
           eq_refl eq_refl).
Defined.
